(** * ResuMatch: the chat session manager ([ChatProvider], context/ChatContext.tsx)

    A shallow embedding of the React provider that owns the socket.io
    connection, the joined room, the message log, the typing set and the
    unread counter.

    React state is a record with one setter per [useState] cell; everything
    the provider does to the outside (signals emitted on a socket, console
    lines, HTTP requests, timers) is recorded in the surrounding [World].
    The variables the connection effect closes over ([pathIndex],
    [currentSocket], [finalSocket], and the values of [currentRoom] and
    [user.username] it saw when it ran) are fields of the world as well. *)

From stdpp Require Import base numbers list strings gmap.

Open Scope string_scope.
Open Scope list_scope.

(** ** Data model (types.ts) *)

Module Message.
Record t := mk {
  id : string;
  room_id : string;
  sender_id : string;
  receiver_id : string;
  content : string;
  timestamp : string;
  read : bool
}.
End Message.

Module LastMessage.
Record t := mk { content : string; sender_id : string; timestamp : string }.
End LastMessage.

Module ChatRoom.
Record t := mk {
  id : string;
  job_id : string;
  student_id : option string;
  recruiter_id : option string;
  job_title : string;
  company_name : string;
  participants : list string;
  created_at : string;
  last_message : option LastMessage.t;
  unread_count : N
}.
End ChatRoom.

Module User.
Inductive Role := student | recruiter | admin.
Record t := mk { id : string; username : string; email : string; role : Role }.
End User.

(** What [useAuth()] hands to the provider. *)
Record Auth := mkAuth { user : option User.t; token : option string }.

(** JavaScript truthiness of [token]: [null] and the empty string are falsy. *)
Definition truthy (s : option string) : bool :=
  match s with
  | Some s => negb (String.eqb s "")
  | None => false
  end.

(** Sockets are named by the order in which the effect created them. *)
Definition SockId := nat.

(** ** React state of the provider (lines 306-312)

    [unreadCount] starts at 0 and is only ever incremented by 1 or reset
    to 0, so it is a natural number. *)

Record ChatState := mkChatState {
  socket : option SockId;
  messages : list Message.t;
  chatRooms : list ChatRoom.t;
  currentRoom : option string;
  isConnected : bool;
  typingUsers : list string;
  unreadCount : N
}.

Definition initialState : ChatState :=
  mkChatState None [] [] None false [] 0.

Definition setSocket (v : option SockId) (s : ChatState) : ChatState :=
  mkChatState v (messages s) (chatRooms s) (currentRoom s) (isConnected s)
    (typingUsers s) (unreadCount s).

Definition setMessages (f : list Message.t → list Message.t) (s : ChatState) : ChatState :=
  mkChatState (socket s) (f (messages s)) (chatRooms s) (currentRoom s) (isConnected s)
    (typingUsers s) (unreadCount s).

Definition setChatRooms (v : list ChatRoom.t) (s : ChatState) : ChatState :=
  mkChatState (socket s) (messages s) v (currentRoom s) (isConnected s)
    (typingUsers s) (unreadCount s).

Definition setCurrentRoom (v : option string) (s : ChatState) : ChatState :=
  mkChatState (socket s) (messages s) (chatRooms s) v (isConnected s)
    (typingUsers s) (unreadCount s).

Definition setIsConnected (v : bool) (s : ChatState) : ChatState :=
  mkChatState (socket s) (messages s) (chatRooms s) (currentRoom s) v
    (typingUsers s) (unreadCount s).

Definition setTypingUsers (f : list string → list string) (s : ChatState) : ChatState :=
  mkChatState (socket s) (messages s) (chatRooms s) (currentRoom s) (isConnected s)
    (f (typingUsers s)) (unreadCount s).

Definition setUnreadCount (f : N → N) (s : ChatState) : ChatState :=
  mkChatState (socket s) (messages s) (chatRooms s) (currentRoom s) (isConnected s)
    (typingUsers s) (f (unreadCount s)).

(** The derived field of the context value, line 631:
    [isTyping: typingUsers.length > 0]. *)
Definition isTyping (s : ChatState) : bool := (0 <? length (typingUsers s))%nat.

(** ** What leaves the provider *)

(** Payloads of [socket.emit]. *)
Inductive Signal :=
| join_room (room_id : string)
| leave_room (room_id : string)
| send_message (room_id content receiver_id : string)
| start_typing (room_id : string)
| stop_typing (room_id : string)
| mark_as_read (room_id : string).

(** Console lines; the argument is what the template string interpolates.
    Lines printed back to back (three when the effect starts, three on
    [connect]) are kept as one entry. *)
Inductive Log :=
| LogCannotFetchRooms
| LogFetchRoomsFailed (status : N)
| LogFetchRoomsError
| LogInitializing (username : string)
| LogAttempt (path : string) (attempt total : nat)
| LogAllPathsUnsuccessful
| LogConnected (path : option string)
| LogDisconnected
| LogConnectionError (path : option string)
| LogTryingNext (path : option string)
| LogAllPathsFailed
| LogChatError (msg : string)
| LogRoomJoined (roomId : string)
| LogRoomLeft (roomId : string)
| LogHistoryLoaded (count : nat) (roomId : string)
| LogHistoryFailed (status : N)
| LogHistoryError.

(** HTTP requests issued with [fetch]. *)
Inductive Request :=
| GetChatRooms (endpoint : string)
| GetHistory (roomId : string).

(** Outcome of [fetch] followed by [response.json()]: the promise rejected,
    the response was not [ok], or a body arrived whose list field may be
    missing (the code reads it as [data.field || []]). *)
Inductive Response (A : Type) :=
| Rejected
| NotOk (status : N)
| Ok (body : option (list A)).
Arguments Rejected {A}.
Arguments NotOk {A} status.
Arguments Ok {A} body.

(** The three sets of connection listeners the effect attaches. *)
Inductive Listeners :=
| AttemptL   (* attemptConnection, lines 404-436 *)
| InlineL    (* the effect body, lines 496-548 *)
| RetryL.    (* the retry closure, lines 529-542 *)

(** Life of one socket.io client socket created with [reconnection: false]. *)
Inductive Phase := Opening | Live | Down | Failed | Closed.

Record Sock := mkSock {
  s_path : string;             (* the [path] option given to [io] *)
  s_listeners : Listeners;
  s_phase : Phase;
  s_reconnection : bool;       (* [io.opts.reconnection] *)
  s_chat : nat                 (* how often [setupEventHandlers] ran on it *)
}.

Inductive Timer :=
| TimerAttempt                 (* setTimeout(attemptConnection, 1000) *)
| TimerRetry                   (* setTimeout(() => {...}, 1000), line 526 *)
| TimerTyping (userId : string). (* line 469 *)

Record World := mkWorld {
  react : ChatState;
  (* variables of the connection effect's closure *)
  pathIndex : nat;
  currentSocket : option SockId;
  finalSocket : option SockId;
  room_seen : option string;   (* [currentRoom] of the render that ran the effect *)
  user_seen : string;          (* [user.username] of that render *)
  (* the outside *)
  socks : list Sock;
  now : N;
  timers : list (N * Timer);
  pending : list Request;
  emitted : list (SockId * Signal);
  console : list Log
}.

Definition update (f : ChatState → ChatState) (w : World) : World :=
  mkWorld (f (react w)) (pathIndex w) (currentSocket w) (finalSocket w) (room_seen w)
    (user_seen w) (socks w) (now w) (timers w) (pending w) (emitted w) (console w).

Definition set_pathIndex (v : nat) (w : World) : World :=
  mkWorld (react w) v (currentSocket w) (finalSocket w) (room_seen w)
    (user_seen w) (socks w) (now w) (timers w) (pending w) (emitted w) (console w).

Definition set_currentSocket (v : option SockId) (w : World) : World :=
  mkWorld (react w) (pathIndex w) v (finalSocket w) (room_seen w)
    (user_seen w) (socks w) (now w) (timers w) (pending w) (emitted w) (console w).

Definition set_finalSocket (v : option SockId) (w : World) : World :=
  mkWorld (react w) (pathIndex w) (currentSocket w) v (room_seen w)
    (user_seen w) (socks w) (now w) (timers w) (pending w) (emitted w) (console w).

Definition set_socks (v : list Sock) (w : World) : World :=
  mkWorld (react w) (pathIndex w) (currentSocket w) (finalSocket w) (room_seen w)
    (user_seen w) v (now w) (timers w) (pending w) (emitted w) (console w).

Definition set_now (v : N) (w : World) : World :=
  mkWorld (react w) (pathIndex w) (currentSocket w) (finalSocket w) (room_seen w)
    (user_seen w) (socks w) v (timers w) (pending w) (emitted w) (console w).

Definition set_timers (v : list (N * Timer)) (w : World) : World :=
  mkWorld (react w) (pathIndex w) (currentSocket w) (finalSocket w) (room_seen w)
    (user_seen w) (socks w) (now w) v (pending w) (emitted w) (console w).

Definition set_pending (v : list Request) (w : World) : World :=
  mkWorld (react w) (pathIndex w) (currentSocket w) (finalSocket w) (room_seen w)
    (user_seen w) (socks w) (now w) (timers w) v (emitted w) (console w).

(** [socket.emit(...)] on socket [s]. *)
Definition emit (s : SockId) (sig : Signal) (w : World) : World :=
  mkWorld (react w) (pathIndex w) (currentSocket w) (finalSocket w) (room_seen w)
    (user_seen w) (socks w) (now w) (timers w) (pending w) (emitted w ++ [(s, sig)])
    (console w).

(** [console.log] / [console.error]. *)
Definition log (l : Log) (w : World) : World :=
  mkWorld (react w) (pathIndex w) (currentSocket w) (finalSocket w) (room_seen w)
    (user_seen w) (socks w) (now w) (timers w) (pending w) (emitted w)
    (console w ++ [l]).

(** [fetch(...)]: the request is outstanding until its response is delivered. *)
Definition request (r : Request) (w : World) : World :=
  set_pending (pending w ++ [r]) w.

(** [setTimeout(f, delay)]: timers are kept in firing order, a new timer
    after those already due at the same instant. *)
Fixpoint insert_timer (due : N) (t : Timer) (q : list (N * Timer)) : list (N * Timer) :=
  match q with
  | [] => [(due, t)]
  | (d, t') :: q' =>
      if (d <=? due)%N then (d, t') :: insert_timer due t q'
      else (due, t) :: (d, t') :: q'
  end.

Definition setTimeout (t : Timer) (delay : N) (w : World) : World :=
  set_timers (insert_timer (now w + delay)%N t (timers w)) w.

(** Statements of a handler are written top to bottom with [w |> f |> g]. *)
Notation "w |> f" := (f w) (at level 45, left associativity, only parsing).

(** ** Operations of the context value (lines 557-623) *)

(** [fetchChatRooms], up to the [await fetch]. *)
Definition fetchChatRooms (a : Auth) (w : World) : World :=
  match user a with
  | Some u =>
      if truthy (token a) then
        let endpoint :=
          match User.role u with
          | User.student => "/student/chat-rooms"
          | _ => "/recruiter/chat-rooms"
          end in
        w |> request (GetChatRooms endpoint)
      else w |> log LogCannotFetchRooms
  | None => w |> log LogCannotFetchRooms
  end.

(** [fetchChatRooms], from the point where the response is there. *)
Definition fetchChatRooms_resume (r : Response ChatRoom.t) (w : World) : World :=
  match r with
  | Ok body => w |> update (setChatRooms (default [] body))
  | NotOk status => w |> log (LogFetchRoomsFailed status)
  | Rejected => w |> log LogFetchRoomsError
  end.

(** [joinRoom], up to the [await fetch]. *)
Definition joinRoom (roomId : string) (w : World) : World :=
  match socket (react w), isConnected (react w) with
  | Some s, true =>
      w |> emit s (join_room roomId)
        |> update (setCurrentRoom (Some roomId))
        |> update (setMessages (λ _, []))
        |> request (GetHistory roomId)
  | _, _ => w
  end.

(** [joinRoom], from the point where the history response is there. *)
Definition joinRoom_resume (roomId : string) (r : Response Message.t) (w : World) : World :=
  match r with
  | Ok body =>
      w |> update (setMessages (λ _, default [] body))
        |> log (LogHistoryLoaded (length (default [] body)) roomId)
  | NotOk status => w |> log (LogHistoryFailed status)
  | Rejected => w |> log LogHistoryError
  end.

Definition leaveRoom (roomId : string) (w : World) : World :=
  match socket (react w), isConnected (react w) with
  | Some s, true =>
      w |> emit s (leave_room roomId)
        |> update (setCurrentRoom None)
  | _, _ => w
  end.

Definition sendMessage (roomId message receiverId : string) (w : World) : World :=
  match socket (react w), isConnected (react w) with
  | Some s, true => w |> emit s (send_message roomId message receiverId)
  | _, _ => w
  end.

Definition startTyping (roomId : string) (w : World) : World :=
  match socket (react w), isConnected (react w) with
  | Some s, true => w |> emit s (start_typing roomId)
  | _, _ => w
  end.

Definition stopTyping (roomId : string) (w : World) : World :=
  match socket (react w), isConnected (react w) with
  | Some s, true => w |> emit s (stop_typing roomId)
  | _, _ => w
  end.

Definition markAsRead (roomId : string) (w : World) : World :=
  match socket (react w), isConnected (react w) with
  | Some s, true =>
      w |> emit s (mark_as_read roomId)
        |> update (setUnreadCount (λ _, 0%N))
  | _, _ => w
  end.

Definition clearMessages (w : World) : World :=
  w |> update (setMessages (λ _, [])).

(** ** Inbound handlers registered by [setupEventHandlers] (lines 446-491)

    The handlers are closures of the connection effect, whose dependency
    list is [[user, token]]: the [currentRoom] and [user.username] they
    read are the values of the render in which the effect ran, kept here
    as [room_seen] and [user_seen]. *)

Definition on_new_message (message : Message.t) (w : World) : World :=
  let w := w |> update (setMessages (λ prev, prev ++ [message])) in
  if bool_decide (Some (Message.room_id message) ≠ room_seen w)
  then w |> update (setUnreadCount (λ prev, prev + 1)%N)
  else w.

Definition on_chat_history (room_id : string) (roomMessages : list Message.t)
    (w : World) : World :=
  if bool_decide (Some room_id = room_seen w)
  then w |> update (setMessages (λ _, roomMessages))
  else w.

Definition on_error (msg : string) (w : World) : World :=
  w |> log (LogChatError msg).

Definition on_user_typing (userId roomId : string) (w : World) : World :=
  if bool_decide (Some roomId = room_seen w) && bool_decide (userId ≠ user_seen w)
  then
    w |> update (setTypingUsers (λ prev, filter (λ id, id ≠ userId) prev ++ [userId]))
      |> setTimeout (TimerTyping userId) 3000
  else w.

Definition on_user_stopped_typing (userId roomId : string) (w : World) : World :=
  if bool_decide (Some roomId = room_seen w)
  then w |> update (setTypingUsers (λ prev, filter (λ id, id ≠ userId) prev))
  else w.

Definition on_room_joined (roomId : string) (w : World) : World :=
  w |> log (LogRoomJoined roomId).

Definition on_room_left (roomId : string) (w : World) : World :=
  w |> log (LogRoomLeft roomId).

(** The callback of the [setTimeout] at line 469. *)
Definition typing_timeout (userId : string) (w : World) : World :=
  w |> update (setTypingUsers (λ prev, filter (λ id, id ≠ userId) prev)).

(** ** The connection effect (lines 347-555) *)

Definition SOCKET_PATHS : list string :=
  [ "/socket.io"; "/ws/socket.io"; "/socketio"; "/ws/socketio"; "/api/socket.io" ].

(** [tryConnection(pathIndex)]: a fresh socket on
    [SOCKET_PATHS[pathIndex] || '/socket.io'] (no entry of the table is the
    empty string), created with [reconnection: false]. The listeners the
    caller attaches right after the call are given as [ls]. *)
Definition tryConnection (idx : nat) (ls : Listeners) (w : World) : SockId * World :=
  let SOCKET_PATH := default "/socket.io" (SOCKET_PATHS !! idx) in
  (length (socks w),
   w |> log (LogAttempt SOCKET_PATH (idx + 1) (length SOCKET_PATHS))
     |> set_socks (socks w ++ [mkSock SOCKET_PATH ls Opening false 0])).

Definition set_phase (p : Phase) (s : Sock) : Sock :=
  mkSock (s_path s) (s_listeners s) p (s_reconnection s) (s_chat s).

(** [currentSocket!.io.opts.reconnection = true] (and the three numeric
    options that go with it). *)
Definition enable_reconnection (c : option SockId) (w : World) : World :=
  match c with
  | Some i =>
      w |> set_socks (alter (λ s, mkSock (s_path s) (s_listeners s) (s_phase s) true
                                    (s_chat s)) i (socks w))
  | None => w
  end.

(** [setupEventHandlers(connectedSocket)]: one more registration of the
    seven chat handlers on that socket, [setSocket], [finalSocket = ...]. *)
Definition setupEventHandlers (c : option SockId) (w : World) : World :=
  match c with
  | Some i =>
      w |> set_socks (alter (λ s, mkSock (s_path s) (s_listeners s) (s_phase s)
                                    (s_reconnection s) (S (s_chat s))) i (socks w))
        |> update (setSocket (Some i))
        |> set_finalSocket (Some i)
  | None => w
  end.

(** The [disconnect] listener; the retry closure attaches none. *)
Definition on_disconnect (ls : Listeners) (w : World) : World :=
  match ls with
  | AttemptL | InlineL =>
      w |> log LogDisconnected
        |> update (setIsConnected false)
  | RetryL => w
  end.

(** [socket.close()]: no event reaches a closed socket any more; a socket
    that was connected emits [disconnect] on the way out. *)
Definition close (c : option SockId) (w : World) : World :=
  match c with
  | Some i =>
      match socks w !! i with
      | Some s =>
          let w' := w |> set_socks (alter (set_phase Closed) i (socks w)) in
          match s_phase s with
          | Live => on_disconnect (s_listeners s) w'
          | _ => w'
          end
      | None => w
      end
  | None => w
  end.

Definition attemptConnection (w : World) : World :=
  if (length SOCKET_PATHS <=? pathIndex w)%nat then
    w |> log LogAllPathsUnsuccessful
  else
    let '(s, w) := tryConnection (pathIndex w) AttemptL w in
    w |> set_currentSocket (Some s).

(** The callback of the [setTimeout] at line 526. *)
Definition retry_timeout (w : World) : World :=
  let '(s, w) := tryConnection (pathIndex w) RetryL w in
  w |> set_currentSocket (Some s).

(** The [connect] listeners. *)
Definition on_connect (ls : Listeners) (w : World) : World :=
  let w := w |> log (LogConnected (SOCKET_PATHS !! pathIndex w))
             |> update (setIsConnected true) in
  match ls with
  | AttemptL => w |> enable_reconnection (currentSocket w)
  | InlineL =>
      w |> enable_reconnection (currentSocket w)
        |> setupEventHandlers (currentSocket w)
  | RetryL => w |> setupEventHandlers (currentSocket w)
  end.

(** The [connect_error] listeners. *)
Definition on_connect_error (ls : Listeners) (w : World) : World :=
  let w := w |> log (LogConnectionError (SOCKET_PATHS !! pathIndex w)) in
  let w := w |> set_pathIndex (S (pathIndex w)) in
  match ls with
  | AttemptL | InlineL =>
      let w := w |> close (currentSocket w) in
      if (pathIndex w <? length SOCKET_PATHS)%nat then
        w |> log (LogTryingNext (SOCKET_PATHS !! pathIndex w))
          |> setTimeout (match ls with AttemptL => TimerAttempt | _ => TimerRetry end) 1000
      else
        w |> log LogAllPathsFailed
          |> update (setIsConnected false)
  | RetryL =>
      if (length SOCKET_PATHS <=? pathIndex w)%nat then
        w |> log LogAllPathsFailed
          |> update (setIsConnected false)
      else w
  end.

(** The body of the effect, run when [user] and [token] are both there. *)
Definition connection_effect (a : Auth) (w : World) : World :=
  match user a with
  | Some u =>
      if truthy (token a) then
        let w :=
          mkWorld (react w) 0 None None (currentRoom (react w)) (User.username u)
            (socks w) (now w) (timers w) (pending w) (emitted w) (console w) in
        let w := w |> log (LogInitializing (User.username u))
                   |> attemptConnection in
        let '(s, w) := tryConnection (pathIndex w) InlineL w in
        w |> set_currentSocket (Some s)
      else w
  | None => w
  end.

(** The provider right after the two effects ran on React state [s0]:
    [fetchChatRooms()] (line 343), then the connection effect. *)
Definition boot (a : Auth) (s0 : ChatState) : World :=
  mkWorld s0 0 None None None "" [] 0 [] [] [] []
    |> fetchChatRooms a
    |> connection_effect a.

(** First mount of the provider. *)
Definition mount (a : Auth) : World := boot a initialState.

(** ** Events and the event loop *)

Global Instance Request_eq_dec : EqDecision Request.
Proof. solve_decision. Defined.

(** Events the server pushes on a connected socket. *)
Inductive Inbound :=
| new_message (message : Message.t)
| chat_history (room_id : string) (roomMessages : list Message.t)
| error_event (msg : string)
| user_typing (userId roomId : string)
| user_stopped_typing (userId roomId : string)
| room_joined (roomId : string)
| room_left (roomId : string).

Definition handle (ev : Inbound) : World → World :=
  match ev with
  | new_message m => on_new_message m
  | chat_history r ms => on_chat_history r ms
  | error_event msg => on_error msg
  | user_typing u r => on_user_typing u r
  | user_stopped_typing u r => on_user_stopped_typing u r
  | room_joined r => on_room_joined r
  | room_left r => on_room_left r
  end.

Definition fire (t : Timer) : World → World :=
  match t with
  | TimerAttempt => attemptConnection
  | TimerRetry => retry_timeout
  | TimerTyping u => typing_timeout u
  end.

(** Everything that can happen to the provider: a call through the
    context value, an HTTP response, a socket.io event on one of the
    sockets, or time passing. *)
Inductive Event :=
| call_joinRoom (roomId : string)
| call_leaveRoom (roomId : string)
| call_sendMessage (roomId message receiverId : string)
| call_startTyping (roomId : string)
| call_stopTyping (roomId : string)
| call_markAsRead (roomId : string)
| call_clearMessages
| call_fetchChatRooms
| history_response (roomId : string) (r : Response Message.t)
| rooms_response (endpoint : string) (r : Response ChatRoom.t)
| connect (i : SockId)
| connect_error (i : SockId)
| disconnect (i : SockId)
| inbound (i : SockId) (ev : Inbound)
| elapse (dt : N).

(** A socket may still report the outcome of a connection attempt while it
    is opening, or once it dropped if reconnection was switched on. The
    sockets are built with [reconnection: false] and the option is set on
    [io.opts] only after a connect (lines 411 and 503); a client that
    reads the option once, when the manager is built, never comes back
    from [Down]. The events are allowed all the same: this only adds
    event sequences to the ones every invariant below is proved for. *)
Definition can_connect (s : Sock) : bool :=
  match s_phase s with
  | Opening => true
  | Down => s_reconnection s
  | _ => false
  end.

Definition is_live (s : Sock) : bool :=
  match s_phase s with Live => true | _ => false end.

Fixpoint remove_first (r : Request) (l : list Request) : option (list Request) :=
  match l with
  | [] => None
  | x :: l' =>
      if decide (x = r) then Some l'
      else match remove_first r l' with
           | Some l'' => Some (x :: l'')
           | None => None
           end
  end.

(** All timers due at or before the new instant fire, in order. Firing a
    timer never sets another one. *)
Definition pass_time (dt : N) (w : World) : World :=
  let t := (now w + dt)%N in
  let due := filter (λ p, (p.1 ≤ t)%N) (timers w) in
  let later := filter (λ p, ¬ (p.1 ≤ t)%N) (timers w) in
  foldl (λ w p, fire p.2 w) (w |> set_now t |> set_timers later) due.

Definition step (a : Auth) (e : Event) (w : World) : World :=
  match e with
  | call_joinRoom r => joinRoom r w
  | call_leaveRoom r => leaveRoom r w
  | call_sendMessage r m rc => sendMessage r m rc w
  | call_startTyping r => startTyping r w
  | call_stopTyping r => stopTyping r w
  | call_markAsRead r => markAsRead r w
  | call_clearMessages => clearMessages w
  | call_fetchChatRooms => fetchChatRooms a w
  | history_response r resp =>
      match remove_first (GetHistory r) (pending w) with
      | Some rest => w |> set_pending rest |> joinRoom_resume r resp
      | None => w
      end
  | rooms_response ep resp =>
      match remove_first (GetChatRooms ep) (pending w) with
      | Some rest => w |> set_pending rest |> fetchChatRooms_resume resp
      | None => w
      end
  | connect i =>
      match socks w !! i with
      | Some s =>
          if can_connect s then
            w |> set_socks (alter (set_phase Live) i (socks w))
              |> on_connect (s_listeners s)
          else w
      | None => w
      end
  | connect_error i =>
      match socks w !! i with
      | Some s =>
          if can_connect s then
            w |> set_socks (alter (λ s, if s_reconnection s then s
                                        else set_phase Failed s) i (socks w))
              |> on_connect_error (s_listeners s)
          else w
      | None => w
      end
  | disconnect i =>
      match socks w !! i with
      | Some s =>
          if is_live s then
            w |> set_socks (alter (set_phase Down) i (socks w))
              |> on_disconnect (s_listeners s)
          else w
      | None => w
      end
  | inbound i ev =>
      match socks w !! i with
      | Some s => if is_live s then Nat.iter (s_chat s) (handle ev) w else w
      | None => w
      end
  | elapse dt => pass_time dt w
  end.

Definition run (a : Auth) (evs : list Event) (w : World) : World :=
  foldl (λ w e, step a e w) w evs.

(** Which mount points the server answers on decides between [connect]
    and [connect_error]; the order of events is the environment's. *)
Definition obeys (works : string → bool) (e : Event) (w : World) : bool :=
  match e with
  | connect i =>
      match socks w !! i with
      | Some s => can_connect s && works (s_path s)
      | None => false
      end
  | connect_error i =>
      match socks w !! i with
      | Some s => can_connect s && negb (works (s_path s))
      | None => false
      end
  | _ => true
  end.

Fixpoint schedule_ok (works : string → bool) (a : Auth) (evs : list Event)
    (w : World) : bool :=
  match evs with
  | [] => true
  | e :: evs' => obeys works e w && schedule_ok works a evs' (step a e w)
  end.

(** ** [String.prototype.trim], as [ChatPage.handleSendMessage] and
    [JobListPage.addSkill] use it

    A [string] holds the UTF-8 bytes of the JavaScript string. [trim]
    strips, at both ends, the code points ECMAScript calls WhiteSpace or
    LineTerminator:

    - U+0009 to U+000D and U+0020, one byte each ([Ascii.is_space]);
    - U+00A0, bytes C2 A0;
    - U+1680, bytes E1 9A 80;
    - U+2000 to U+200A, bytes E2 80 80 to E2 80 8A;
    - U+2028, U+2029 and U+202F, bytes E2 80 A8, E2 80 A9 and E2 80 AF;
    - U+205F, bytes E2 81 9F;
    - U+3000, bytes E3 80 80;
    - U+FEFF, bytes EF BB BF.

    In UTF-8 a lead byte never occurs inside another code point, so a
    byte sequence of this table at either end of a text is that code
    point. *)

Definition white2 (a b : Ascii.ascii) : bool :=
  (Ascii.N_of_ascii a =? 194)%N && (Ascii.N_of_ascii b =? 160)%N.

Definition white3 (a b c : Ascii.ascii) : bool :=
  let a := Ascii.N_of_ascii a in
  let b := Ascii.N_of_ascii b in
  let c := Ascii.N_of_ascii c in
  ((a =? 225) && (b =? 154) && (c =? 128)
   || (a =? 226) && (b =? 128)
      && ((128 <=? c) && (c <=? 138) || (c =? 168) || (c =? 169) || (c =? 175))
   || (a =? 226) && (b =? 129) && (c =? 159)
   || (a =? 227) && (b =? 128) && (c =? 128)
   || (a =? 239) && (b =? 187) && (c =? 191))%N.

(** Strips white space from the front of [s]. With [backwards] the bytes
    of [s] are read as a reversed text: the bytes of a code point come
    last byte first. *)
Fixpoint strip (backwards : bool) (s : string) : string :=
  match s with
  | String a s1 =>
      if Ascii.is_space a then strip backwards s1
      else
        match s1 with
        | String b s2 =>
            if (if backwards then white2 b a else white2 a b) then strip backwards s2
            else
              match s2 with
              | String c s3 =>
                  if (if backwards then white3 c b a else white3 a b c)
                  then strip backwards s3
                  else s
              | EmptyString => s
              end
        | EmptyString => s
        end
  | EmptyString => EmptyString
  end.

Definition trimStart (s : string) : string := strip false s.

Definition trimEnd (s : string) : string :=
  String.rev (strip true (String.rev s)).

Definition trim (s : string) : string := trimEnd (trimStart s).

(** The white-space code points, as UTF-8. *)
Definition code (bytes : list N) : string :=
  String.string_of_list_ascii (Ascii.ascii_of_N <$> bytes).

Definition white_space : list string :=
  (code <$> [ [9]; [10]; [11]; [12]; [13]; [32]; [194; 160]; [225; 154; 128] ])%N
  ++ ((λ c, code [226; 128; c]) <$> [128; 129; 130; 131; 132; 133; 134; 135; 136; 137; 138;
                                     168; 169; 175])%N
  ++ (code <$> [ [226; 129; 159]; [227; 128; 128]; [239; 187; 191] ])%N.

(** Their bytes in the order [strip] meets them. *)
Definition white_at (backwards : bool) : list string :=
  if backwards then String.rev <$> white_space else white_space.

Definition joined (l : list string) : string := foldr String.append "" l.

(** ** Sample sessions *)

Definition alice : Auth :=
  mkAuth (Some (User.mk "u1" "alice" "alice@example.org" User.student)) (Some "jwt").

Definition msg (id room sender receiver text : string) : Message.t :=
  Message.mk id room sender receiver text "2025-01-01T00:00:00Z" false.

(** Both sockets of the first mount connect on ["/socket.io"]; the second
    one (the effect body's) gets the chat handlers and becomes [socket]. *)
Definition online : World := run alice [connect 0; connect 1] (mount alice).

(** Room r1 joined, its empty history loaded. *)
Definition in_r1 : World :=
  run alice [call_joinRoom "r1"; history_response "r1" (Ok (Some []))] online.

(** Room r1 joined and one message of r1 in the log. *)
Definition chatting : World :=
  run alice [inbound 1 (new_message (msg "m1" "r1" "bob" "alice" "hi"))] in_r1.

(** A message for another room arrived, then the connection dropped. *)
Definition dropped : World :=
  run alice [inbound 1 (new_message (msg "m2" "r2" "carol" "alice" "hello")); disconnect 1]
    in_r1.

(** The effect ran again (new credentials) while room r1 was the current
    room of the provider, which stays mounted: the handlers hold r1. *)
Definition back_in_r1 : World :=
  run alice [connect 0; connect 1] (boot alice (setCurrentRoom (Some "r1") initialState)).

(** Only the second mount point answers. *)
Definition only_second (path : string) : bool := String.eqb path "/ws/socket.io".

(** The two sockets of the first mount both fail on ["/socket.io"]; the
    error of the effect body's socket is reported first. *)
Definition inline_error_first : list Event :=
  [connect_error 1; connect_error 0; elapse 1000;
   connect_error 2; connect_error 3; elapse 1000; connect_error 4].

(** The same, the error of [attemptConnection]'s socket reported first. *)
Definition attempt_error_first : list Event :=
  [connect_error 0; elapse 1000; connect 2].

Definition is_connection_error (l : Log) : bool :=
  match l with LogConnectionError _ => true | _ => false end.

(** Number of failed attempts on the console. *)
Definition failed_attempts (w : World) : nat :=
  length (List.filter is_connection_error (console w)).

(** * The rest of the front end the provider works with *)

(** ** [String.prototype.includes]: the needle occurs somewhere in the
    string *)

Fixpoint includes (s searchString : string) : bool :=
  String.prefix searchString s
  || match s with
     | String _ s' => includes s' searchString
     | EmptyString => false
     end.

(** * ChatPage (pages/ChatPage.tsx): the caller of the context value

    The page keeps the draft, the selected room and the search box in
    state, and the id of its stop-typing timer in a ref. Its handlers are
    rebuilt on every render, so they read the context value of the current
    world; the callback of its timer keeps the [stopTyping] of the render
    that set it, with that render's [socket] and [isConnected]. *)

Module ChatPage.

Record PageTimer := mkPageTimer {
  pt_id : nat;
  pt_due : N;
  pt_room : string;              (* [selectedRoom] of the render that set it *)
  pt_socket : option SockId;     (* [socket] of that render's [stopTyping] *)
  pt_connected : bool            (* [isConnected] of that render's [stopTyping] *)
}.

Record Page := mkPage {
  newMessage : string;
  selectedRoom : option string;
  searchQuery : string;
  typingTimeoutRef : option nat;
  page_timers : list PageTimer;  (* pending [window.setTimeout] callbacks *)
  next_timer : nat               (* the id the next [window.setTimeout] returns *)
}.

(** A page that was just mounted; timer ids are positive. *)
Definition initialPage : Page := mkPage "" None "" None [] 1.

(** Truthiness of a string or null, and of a timer id or null. *)
Definition nonempty (s : string) : bool := negb (String.eqb s "").

Definition room_set (r : option string) : option string :=
  match r with
  | Some s => if nonempty s then Some s else None
  | None => None
  end.

Definition ref_set (r : option nat) : option nat :=
  match r with
  | Some (S n) => Some (S n)
  | _ => None
  end.

(** [clearTimeout(id)]. *)
Definition clearTimeout (id : nat) (p : Page) : Page :=
  mkPage (newMessage p) (selectedRoom p) (searchQuery p) (typingTimeoutRef p)
    (List.filter (λ t, negb (Nat.eqb (pt_id t) id)) (page_timers p)) (next_timer p).

Definition set_ref (r : option nat) (p : Page) : Page :=
  mkPage (newMessage p) (selectedRoom p) (searchQuery p) r (page_timers p) (next_timer p).

Definition setNewMessage (v : string) (p : Page) : Page :=
  mkPage v (selectedRoom p) (searchQuery p) (typingTimeoutRef p) (page_timers p)
    (next_timer p).

Definition setSelectedRoom (v : option string) (p : Page) : Page :=
  mkPage (newMessage p) v (searchQuery p) (typingTimeoutRef p) (page_timers p)
    (next_timer p).

(** [getOtherParticipant], lines 102-106. *)
Definition getOtherParticipant (a : Auth) (w : World) (roomId : string) : string :=
  match List.find (λ r, bool_decide (ChatRoom.id r = roomId)) (chatRooms (react w)),
        user a with
  | Some room, Some u =>
      match List.find (λ p, bool_decide (p ≠ User.username u)) (ChatRoom.participants room)
      with
      | Some p => p
      | None => ""
      end
  | _, _ => ""
  end.

(** [handleSendMessage], lines 58-73. *)
Definition handleSendMessage (a : Auth) (pw : Page * World) : Page * World :=
  let '(p, w) := pw in
  match room_set (selectedRoom p) with
  | Some room =>
      if nonempty (trim (newMessage p)) && isConnected (react w) then
        let receiverId := getOtherParticipant a w room in
        if nonempty receiverId then
          let '(p, w) :=
            match ref_set (typingTimeoutRef p) with
            | Some id => (p |> clearTimeout id |> set_ref None, stopTyping room w)
            | None => (p, w)
            end in
          (p |> setNewMessage "", sendMessage room (trim (newMessage p)) receiverId w)
        else (p, w)
      else (p, w)
  | None => (p, w)
  end.

(** [handleInputChange], lines 75-93. *)
Definition handleInputChange (value : string) (pw : Page * World) : Page * World :=
  let '(p, w) := pw in
  let p := p |> setNewMessage value in
  match room_set (selectedRoom p) with
  | Some room =>
      if isConnected (react w) then
        let p := match ref_set (typingTimeoutRef p) with
                 | Some id => p |> clearTimeout id
                 | None => p
                 end in
        let t := mkPageTimer (next_timer p) (now w + 2000)%N room (socket (react w))
                   (isConnected (react w)) in
        (mkPage (newMessage p) (selectedRoom p) (searchQuery p) (Some (next_timer p))
           (page_timers p ++ [t]) (S (next_timer p)),
         startTyping room w)
      else (p, w)
  | None => (p, w)
  end.

(** The callback of the page's timer, lines 88-91: the [stopTyping] it
    calls is the one of the render that set the timer. *)
Definition typing_stopped (t : PageTimer) (pw : Page * World) : Page * World :=
  let '(p, w) := pw in
  (p |> set_ref None,
   match pt_socket t, pt_connected t with
   | Some s, true => w |> emit s (stop_typing (pt_room t))
   | _, _ => w
   end).

(** The cleanup of the effect at lines 46-52, run when [selectedRoom]
    changes or the page unmounts; the ref keeps the id. *)
Definition typing_cleanup (p : Page) : Page :=
  match ref_set (typingTimeoutRef p) with
  | Some id => p |> clearTimeout id
  | None => p
  end.

(** The effect at lines 39-43. *)
Definition join_effect (pw : Page * World) : Page * World :=
  let '(p, w) := pw in
  match room_set (selectedRoom p) with
  | Some room =>
      if bool_decide (currentRoom (react w) ≠ Some room) then (p, joinRoom room w)
      else (p, w)
  | None => (p, w)
  end.

(** [handleRoomSelect], lines 108-111. *)
Definition handleRoomSelect (roomId : string) (pw : Page * World) : Page * World :=
  let '(p, w) := pw in
  (p |> setSelectedRoom (Some roomId), markAsRead roomId w).

(** A click on a room and the render it causes: when the selected room
    changed, React runs the cleanup above and then the join effect. *)
Definition select_room (roomId : string) (pw : Page * World) : Page * World :=
  let changed := bool_decide (selectedRoom pw.1 ≠ Some roomId) in
  let '(p, w) := handleRoomSelect roomId pw in
  if changed then join_effect (typing_cleanup p, w) else (p, w).

(** [filteredRooms], lines 29-33; [toLowerCase] is left open. *)
Definition filteredRooms (toLowerCase : string → string) (p : Page) (w : World)
    : list ChatRoom.t :=
  List.filter (λ room,
    existsb (λ participant,
      includes (toLowerCase participant) (toLowerCase (searchQuery p)))
      (ChatRoom.participants room))
    (chatRooms (react w)).

(** Time passes on the page: the provider's timers fire, and the page's
    due callbacks run in the order they were set. The two kinds of
    callback touch disjoint parts of the state. *)
Definition page_pass_time (dt : N) (pw : Page * World) : Page * World :=
  let '(p, w) := pw in
  let t := (now w + dt)%N in
  let due := List.filter (λ x, (pt_due x <=? t)%N) (page_timers p) in
  let later := List.filter (λ x, negb (pt_due x <=? t)%N) (page_timers p) in
  foldl (λ pw x, typing_stopped x pw)
    (mkPage (newMessage p) (selectedRoom p) (searchQuery p) (typingTimeoutRef p) later
       (next_timer p),
     pass_time dt w)
    due.

(** What the user does on the page. *)
Inductive Action :=
| type_text (value : string)
| press_send
| pick_room (roomId : string)
| rerun_join_effect         (* a render after which React runs the join effect *)
| provider (e : Event).     (* anything that happens in the provider *)

Definition act (a : Auth) (x : Action) (pw : Page * World) : Page * World :=
  match x with
  | type_text v => handleInputChange v pw
  | press_send => handleSendMessage a pw
  | pick_room r => select_room r pw
  | rerun_join_effect => join_effect pw
  | provider e =>
      match e with
      | elapse dt => page_pass_time dt pw
      | _ => (pw.1, step a e pw.2)
      end
  end.

Definition session (a : Auth) (xs : list Action) (pw : Page * World) : Page * World :=
  foldl (λ pw x, act a x pw) pw xs.

(** *** What the statements about the stop-typing timer use *)

(** At most one stop-typing timer is pending, and the ref holds its id. *)
Definition one_timer (p : Page) : Prop :=
  (0 < next_timer p)%nat
  ∧ (page_timers p = []
     ∨ ∃ t, page_timers p = [t] ∧ typingTimeoutRef p = Some (pt_id t)
            ∧ (0 < pt_id t < next_timer p)%nat).

End ChatPage.

(** * JobListPage (pages/JobListPage.tsx): skills and the client-side filter *)

Module JobListPage.

Record Job := mkJob {
  id : string;
  title : string;
  company_name : string;
  location : string;
  description : string;
  skills_required : list string;
  experience_level : string;
  salary_range : option string;
  status : string;
  recruiter_id : string;
  recruiter_email : string;
  created_at : string
}.

(** The two pieces of state the skill buttons touch. *)
Record Skills := mkSkills { selectedSkills : list string; skillInput : string }.

(** [addSkill], lines 699-705. *)
Definition addSkill (skill : string) (st : Skills) : Skills :=
  let trimmedSkill := trim skill in
  if negb (String.eqb trimmedSkill "")
     && negb (bool_decide (trimmedSkill ∈ selectedSkills st))
  then mkSkills (selectedSkills st ++ [trimmedSkill]) ""
  else st.

(** [removeSkill], lines 708-710. *)
Definition removeSkill (skillToRemove : string) (st : Skills) : Skills :=
  mkSkills (filter (λ skill, skill ≠ skillToRemove) (selectedSkills st)) (skillInput st).

Inductive SkillAction := add (skill : string) | remove (skill : string).

Definition apply_skill (st : Skills) (x : SkillAction) : Skills :=
  match x with
  | add s => addSkill s st
  | remove s => removeSkill s st
  end.

Section Filter.

(** [String.prototype.toLowerCase] is left open. *)
Variable toLowerCase : string → string.

(** The effect at lines 732-766: what [setFilteredJobs] receives. [jobs]
    is null until a search has answered. *)
Definition filteredJobs (jobs : option (list Job)) (searchTerm : string)
    (selectedSkills : list string) (selectedExperience : string) : list Job :=
  match jobs with
  | None => []
  | Some jobs =>
      let filtered := jobs in
      let filtered :=
        if negb (String.eqb searchTerm "") then
          List.filter (λ job,
            includes (toLowerCase (title job)) (toLowerCase searchTerm)
            || includes (toLowerCase (company_name job)) (toLowerCase searchTerm)
            || includes (toLowerCase (description job)) (toLowerCase searchTerm))
            filtered
        else filtered in
      let filtered :=
        if (0 <? length selectedSkills)%nat then
          List.filter (λ job,
            existsb (λ skill,
              existsb (λ jobSkill,
                includes (toLowerCase jobSkill) (toLowerCase skill))
                (skills_required job))
              selectedSkills)
            filtered
        else filtered in
      let filtered :=
        if negb (String.eqb selectedExperience "") then
          List.filter (λ job, String.eqb (experience_level job) selectedExperience) filtered
        else filtered in
      filtered
  end.

End Filter.

End JobListPage.

(** * SignupPage (pages/SignupPage.tsx): the checks before [signup] *)

Module SignupPage.

Inductive Role := student | recruiter.

Record FormData := mkFormData {
  username : string;
  email : string;
  password : string;
  confirmPassword : string;
  role : Role
}.

(** The argument of [signup] (types.ts, [SignupData]). *)
Record SignupData := mkSignupData {
  sd_username : string;
  sd_email : string;
  sd_password : string;
  sd_role : Role
}.

(** What [validatePassword] returns. *)
Record PasswordValidation := mkPasswordValidation {
  isValid : bool;
  errors : list string
}.

(** What [handleSubmit] does before its first [await]: an error toast
    ([errors[0]] is undefined when the list is empty), or the call of
    [signup]. *)
Inductive Submit :=
| toast_error (message : option string)
| call_signup (userData : SignupData).

Section Validators.

(** [validateEmail] and [validatePassword] of utils/helpers are left open. *)
Variable validateEmail : string → bool.
Variable validatePassword : string → PasswordValidation.

(** [handleSubmit], lines 29-65, up to the [await]. *)
Definition handleSubmit (formData : FormData) : Submit :=
  if String.eqb (username formData) "" || String.eqb (email formData) ""
     || String.eqb (password formData) "" || String.eqb (confirmPassword formData) ""
  then toast_error (Some "Please fill in all fields")
  else if negb (validateEmail (email formData))
  then toast_error (Some "Please enter a valid email address")
  else
    let passwordValidation := validatePassword (password formData) in
    if negb (isValid passwordValidation)
    then toast_error (head (errors passwordValidation))
    else if negb (String.eqb (password formData) (confirmPassword formData))
    then toast_error (Some "Passwords do not match")
    else call_signup (mkSignupData (username formData) (email formData)
                        (password formData) (role formData)).

End Validators.

End SignupPage.

(** * AuthContext (context/AuthContext.tsx) and the token in
    [localStorage] (utils/auth.ts) *)

Module AuthContext.

Record AuthState := mkAuthState {
  user : option User.t;
  token : option string;
  loading : bool;
  error : option string
}.

Inductive AuthAction :=
| LOGIN_START
| LOGIN_SUCCESS (payload_user : option User.t) (payload_token : string)
| LOGIN_FAILURE (payload : string)
| LOGOUT
| SET_USER (payload : User.t)
| CLEAR_ERROR.

Definition initialState : AuthState := mkAuthState None None false None.

(** [authReducer]. The payload of [LOGIN_SUCCESS] is typed [User], but
    the hydration effect passes [user as any], which may be null. *)
Definition authReducer (state : AuthState) (action : AuthAction) : AuthState :=
  match action with
  | LOGIN_START => mkAuthState (user state) (token state) true None
  | LOGIN_SUCCESS u t => mkAuthState u (Some t) false None
  | LOGIN_FAILURE msg => mkAuthState (user state) (token state) false (Some msg)
  | LOGOUT => initialState
  | SET_USER u => mkAuthState (Some u) (token state) (loading state) (error state)
  | CLEAR_ERROR => mkAuthState (user state) (token state) (loading state) None
  end.

(** [localStorage]. *)
Abbreviation Storage := (gmap string string).

Definition setToken (t : string) (ls : Storage) : Storage := <["token" := t]> ls.
Definition getToken (ls : Storage) : option string := ls !! "token".
Definition removeToken (ls : Storage) : Storage := delete "token" ls.
Definition isAuthenticated (ls : Storage) : bool := truthy (getToken ls).

Definition getAuthHeaders (ls : Storage) : gmap string string :=
  match getToken ls with
  | Some t => if truthy (Some t) then {["Authorization" := "Bearer " +:+ t]} else ∅
  | None => ∅
  end.

Section Decode.

(** [JSON.parse(atob(token.split('.')[1]))] and the object built from the
    payload, left open; [None] when one of the steps throws. *)
Variable decode : string → option User.t.

(** [getUserFromToken]: the user, and the storage it leaves behind. *)
Definition getUserFromToken (ls : Storage) : option User.t * Storage :=
  match getToken ls with
  | Some t =>
      if truthy (Some t) then
        match decode t with
        | Some u => (Some u, ls)
        | None => (None, removeToken ls)
        end
      else (None, ls)
  | None => (None, ls)
  end.

(** The effect that hydrates the state on mount, lines 73-83. *)
Definition hydrate (state : AuthState) (ls : Storage) : AuthState * Storage :=
  let '(u, ls) := getUserFromToken ls in
  let t := getToken ls in
  let state := match u with
               | Some u => authReducer state (SET_USER u)
               | None => state
               end in
  let state := match t with
               | Some t => if truthy (Some t) then authReducer state (LOGIN_SUCCESS u t)
                           else state
               | None => state
               end in
  (state, ls).

(** Outcome of [authService.login]: the access token, or a rejection with
    the [detail] of the response if there is one. *)
Inductive LoginResponse :=
| login_ok (access_token : string)
| login_rejected (detail : option string).

(** [login], lines 85-109, on the response of the service; the result is
    [success] and the state and storage it leaves. *)
Definition login (r : LoginResponse) (state : AuthState) (ls : Storage)
    : bool * AuthState * Storage :=
  let state := authReducer state LOGIN_START in
  match r with
  | login_ok access_token =>
      let ls := setToken access_token ls in
      let '(userFromToken, ls) := getUserFromToken ls in
      match userFromToken with
      | None => (false, authReducer state (LOGIN_FAILURE "Invalid token received"), ls)
      | Some u => (true, authReducer state (LOGIN_SUCCESS (Some u) access_token), ls)
      end
  | login_rejected detail =>
      let errorMessage := match detail with
                          | Some d => if String.eqb d "" then "Login failed" else d
                          | None => "Login failed"
                          end in
      (false, authReducer state (LOGIN_FAILURE errorMessage), ls)
  end.

(** [logout], lines 144-147. *)
Definition logout (state : AuthState) (ls : Storage) : AuthState * Storage :=
  (authReducer state LOGOUT, removeToken ls).

End Decode.

(** A dispatch as the action type allows it: [LOGIN_SUCCESS] carries a
    user. *)
Definition typed (action : AuthAction) : Prop :=
  match action with
  | LOGIN_SUCCESS None _ => False
  | _ => True
  end.

End AuthContext.

(** ** Notions used in the statements about the provider *)

(** The signal a call through the context value carries. *)
Definition signal_of (e : Event) : option Signal :=
  match e with
  | call_joinRoom r => Some (join_room r)
  | call_leaveRoom r => Some (leave_room r)
  | call_sendMessage r m rc => Some (send_message r m rc)
  | call_startTyping r => Some (start_typing r)
  | call_stopTyping r => Some (stop_typing r)
  | call_markAsRead r => Some (mark_as_read r)
  | _ => None
  end.

Definition is_retry_timer (t : Timer) : bool :=
  match t with
  | TimerAttempt | TimerRetry => true
  | TimerTyping _ => false
  end.

(** Retries that are scheduled and have not fired yet. *)
Definition retries_pending (q : list (N * Timer)) : nat :=
  length (List.filter (λ p, is_retry_timer p.2) q).

(** Retries the path table still allows: a [connect_error] listener sets
    a retry timer only while the incremented [pathIndex] is inside the
    table. *)
Definition retries_left (w : World) : nat :=
  length SOCKET_PATHS - 1 - pathIndex w.

Definition budget (w : World) : nat :=
  length (socks w) + retries_pending (timers w) + retries_left w.

(** What the budget is made of. *)
Definition shape (w : World) : nat * list (N * Timer) * nat :=
  (length (socks w), timers w, pathIndex w).

(** No socket has reconnection switched on or carries chat handlers. *)
Definition untouched (l : list Sock) : Prop :=
  Forall (λ s, s_reconnection s = false ∧ s_chat s = 0) l.

(** The provider as it is while no socket has connected yet. *)
Definition never_connected (w : World) : Prop :=
  isConnected (react w) = false
  ∧ socket (react w) = None
  ∧ emitted w = []
  ∧ untouched (socks w).

(** The socket opened last. *)
Definition newest (l : list Sock) : option SockId :=
  match length l with
  | 0 => None
  | S n => Some n
  end.

(** Socket [i] exists and carries the chat handlers. *)
Definition wired (l : list Sock) (i : nat) : Prop :=
  ∃ s, l !! i = Some s ∧ (0 < s_chat s)%nat.

Definition wiring (w : World) : Prop :=
  currentSocket w = newest (socks w)
  ∧ socket (react w) = finalSocket w
  ∧ (∀ i, finalSocket w = Some i → wired (socks w) i).

(** [w'] has the sockets of [w], none of them with fewer handlers, and
    the same three socket variables. *)
Definition same_wiring (w w' : World) : Prop :=
  currentSocket w' = currentSocket w
  ∧ finalSocket w' = finalSocket w
  ∧ socket (react w') = socket (react w)
  ∧ length (socks w') = length (socks w)
  ∧ (∀ i, wired (socks w) i → wired (socks w') i).

(** ** More sample sessions *)

Definition room_r1 : ChatRoom.t :=
  ChatRoom.mk "r1" "job1" (Some "alice") (Some "bob") "Engineer" "Acme"
    ["alice"; "bob"] "2025-01-01T00:00:00Z" None 0.

(** Only the second mount point answers and [attemptConnection]'s socket
    is the one that connects: [isConnected] is true, [socket] is null. *)
Definition connected_without_socket : World :=
  run alice (attempt_error_first
             ++ [rooms_response "/student/chat-rooms" (Ok (Some [room_r1]))])
    (mount alice).

(** ** [String.prototype.trim] *)

Lemma string_app_nil_r (s : string) : s +:+ "" = s.
Proof.
  induction s as [|a s IH]; [done|]. change (String a (s +:+ "") = String a s).
  by f_equal.
Qed.

Lemma string_app_assoc (s t u : string) : (s +:+ t) +:+ u = s +:+ t +:+ u.
Proof.
  induction s as [|a s IH]; [done|].
  change (String a ((s +:+ t) +:+ u) = String a (s +:+ t +:+ u)). by f_equal.
Qed.

Lemma string_app_length (s t : string) :
  String.length (s +:+ t) = (String.length s + String.length t)%nat.
Proof.
  induction s as [|a s IH]; [done|].
  change (S (String.length (s +:+ t)) = S (String.length s + String.length t)).
  by f_equal.
Qed.

Lemma rev_app_spec (s t : string) : String.rev_app s t = String.rev s +:+ t.
Proof.
  unfold String.rev. revert t. induction s as [|a s IH]; intros t; [done|].
  cbn [String.rev_app]. rewrite IH, (IH (String a "")). by rewrite string_app_assoc.
Qed.

Lemma string_rev_app (s t : string) : String.rev (s +:+ t) = String.rev t +:+ String.rev s.
Proof.
  induction s as [|a s IH].
  - change ("" +:+ t) with t. by rewrite string_app_nil_r.
  - change (String a s +:+ t) with (String a (s +:+ t)).
    unfold String.rev at 1 3. cbn [String.rev_app]. rewrite !rev_app_spec, IH.
    by rewrite string_app_assoc.
Qed.

Lemma string_rev_involutive (s : string) : String.rev (String.rev s) = s.
Proof.
  induction s as [|a s IH]; [done|].
  unfold String.rev at 2. cbn [String.rev_app]. by rewrite rev_app_spec, string_rev_app, IH.
Qed.

Lemma white_at_nonempty back ws : ws ∈ white_at back → (0 < String.length ws)%nat.
Proof.
  intros Hin. destruct back; vm_compute in Hin;
    repeat (apply elem_of_cons in Hin as [->|Hin]; [simpl; lia|]);
    by apply elem_of_nil in Hin.
Qed.

Lemma strip_white back ws t : ws ∈ white_at back → strip back (ws +:+ t) = strip back t.
Proof.
  intros Hin. destruct back; vm_compute in Hin;
    repeat (apply elem_of_cons in Hin as [->|Hin]; [reflexivity|]);
    by apply elem_of_nil in Hin.
Qed.

Lemma is_space_white back a :
  Ascii.is_space a = true → String a "" ∈ white_at back.
Proof.
  intros Ha. apply list_elem_of_In.
  destruct a as [[] [] [] [] [] [] [] []]; try discriminate Ha;
    destruct back; vm_compute; auto 40.
Qed.

Lemma N_of_ascii_eq a n : Ascii.N_of_ascii a = n → a = Ascii.ascii_of_N n.
Proof. intros <-. by rewrite Ascii.ascii_N_embedding. Qed.

Lemma white2_white a b :
  white2 a b = true → String a (String b "") ∈ white_space.
Proof.
  unfold white2. intros [Ha%N.eqb_eq%N_of_ascii_eq Hb%N.eqb_eq%N_of_ascii_eq]%andb_true_iff.
  subst. apply list_elem_of_In. vm_compute. auto 40.
Qed.

Lemma white3_white a b c :
  white3 a b c = true → String a (String b (String c "")) ∈ white_space.
Proof.
  unfold white3. cbv zeta. intros H.
  assert (∃ x y z, Ascii.N_of_ascii a = x ∧ Ascii.N_of_ascii b = y ∧ Ascii.N_of_ascii c = z
            ∧ In [x; y; z]
                 ([ [225; 154; 128] ]
                  ++ ((λ c, [226; 128; c]) <$> [128; 129; 130; 131; 132; 133; 134; 135;
                                                 136; 137; 138; 168; 169; 175])
                  ++ [ [226; 129; 159]; [227; 128; 128]; [239; 187; 191] ])%N)
    as (x & y & z & Ha%N_of_ascii_eq & Hb%N_of_ascii_eq & Hc%N_of_ascii_eq & Hin).
  { eexists _, _, _. split_and!; try reflexivity.
    repeat (apply orb_true_iff in H as [H|H]);
      repeat (apply andb_true_iff in H as [H ?]);
      repeat match goal with
             | H : (_ =? _)%N = true |- _ => apply N.eqb_eq in H; rewrite H
             | H : (_ <=? _)%N = true |- _ => apply N.leb_le in H
             | H : (_ || _) = true |- _ => apply orb_true_iff in H as [H|H]
             | H : (_ && _) = true |- _ => apply andb_true_iff in H as [H ?]
             end;
      try (simpl; auto 40; fail).
    assert (Ascii.N_of_ascii c ∈ [128; 129; 130; 131; 132; 133; 134; 135; 136; 137; 138]%N)
      as Hc.
    { apply list_elem_of_In. simpl. lia. }
    repeat (apply elem_of_cons in Hc as [->|Hc]; [simpl; auto 40|]).
    by apply elem_of_nil in Hc. }
  subst. apply list_elem_of_In.
  simpl in Hin. repeat (destruct Hin as [Hin|Hin]; [injection Hin as <- <- <-; vm_compute; auto 40|]).
  done.
Qed.

Lemma white_at_rev back ws : ws ∈ white_at back → String.rev ws ∈ white_at (negb back).
Proof.
  intros Hin. apply list_elem_of_In.
  destruct back; vm_compute in Hin;
    repeat (apply elem_of_cons in Hin as [->|Hin]; [vm_compute; auto 40|]);
    by apply elem_of_nil in Hin.
Qed.

Ltac not_white H1 H2 H3 :=
  let Hin := fresh "Hin" in
  let Heq := fresh "Heq" in
  intros ? ? Hin Heq;
  vm_compute in Hin;
  repeat (apply elem_of_cons in Hin as [->|Hin];
          [vm_compute in Heq; simplify_eq;
           first [ by vm_compute in H1 | by vm_compute in H2 | by vm_compute in H3 ]|]);
  by apply elem_of_nil in Hin.

(** [strip] either meets a white-space code point at the front and goes
    on behind it, or meets none and returns the text as it is. *)
Lemma strip_cases back s :
  (strip back s = s ∧ ∀ ws t, ws ∈ white_at back → s ≠ ws +:+ t)
  ∨ (∃ ws t, ws ∈ white_at back ∧ s = ws +:+ t).
Proof.
  destruct s as [|a s1].
  { left. split; [done|]. intros ws t Hin%white_at_nonempty Heq.
    destruct ws; [simpl in Hin; lia|discriminate Heq]. }
  destruct (Ascii.is_space a) eqn:H1.
  { right. exists (String a ""), s1. split; [by apply is_space_white|done]. }
  destruct s1 as [|b s2].
  { left. split; [cbn [strip]; by rewrite H1|]. destruct back; not_white H1 H1 H1. }
  destruct (if back then white2 b a else white2 a b) eqn:H2.
  { right. exists (String a (String b "")), s2. split; [|done].
    destruct back.
    - apply white2_white in H2. by apply (white_at_rev false) in H2.
    - by apply white2_white in H2. }
  destruct s2 as [|c s3].
  { left. split; [cbn [strip]; by rewrite H1, H2|]. destruct back; not_white H1 H2 H2. }
  destruct (if back then white3 c b a else white3 a b c) eqn:H3.
  { right. exists (String a (String b (String c ""))), s3. split; [|done].
    destruct back.
    - apply white3_white in H3. by apply (white_at_rev false) in H3.
    - by apply white3_white in H3. }
  left. split; [cbn [strip]; by rewrite H1, H2, H3|]. destruct back; not_white H1 H2 H3.
Qed.

(** What [strip] removes is a run of white-space code points, and what
    it returns does not begin with one. *)
Lemma strip_spec back s :
  ∃ l, Forall (λ ws, ws ∈ white_at back) l
       ∧ s = joined l +:+ strip back s
       ∧ ∀ ws t, ws ∈ white_at back → strip back s ≠ ws +:+ t.
Proof.
  remember (String.length s) as n eqn:Hn. revert s Hn.
  induction (lt_wf n) as [n _ IH]. intros s ->.
  destruct (strip_cases back s) as [[Hs Hno]|(ws & t & Hin & ->)].
  - exists []. rewrite Hs. by split_and!.
  - destruct (IH (String.length t)) with (s := t) as (l & Hl & Ht & Hno); [|done|].
    { rewrite string_app_length. apply white_at_nonempty in Hin. lia. }
    exists (ws :: l). rewrite strip_white by done. split_and!; [by constructor| |done].
    cbn [joined foldr]. rewrite string_app_assoc. by f_equal.
Qed.

Lemma joined_rev back l :
  Forall (λ ws, ws ∈ white_at back) l →
  ∃ l', Forall (λ ws, ws ∈ white_at (negb back)) l' ∧ String.rev (joined l) = joined l'.
Proof.
  induction 1 as [|ws l Hws Hl (l' & Hl' & IH)].
  - by exists [].
  - exists (l' ++ [String.rev ws]). split.
    + apply Forall_app. split; [done|]. constructor; [by apply white_at_rev|done].
    + cbn [joined foldr]. rewrite string_rev_app. fold (joined l). rewrite IH. clear.
      induction l' as [|x l' IH]; cbn [joined foldr app].
      * by rewrite string_app_nil_r.
      * rewrite string_app_assoc. f_equal. exact IH.
Qed.

(** [trim] takes a run of white-space code points off each end, and what
    is left neither begins nor ends with one. *)
Lemma trim_spec (s : string) :
  ∃ l r, Forall (λ ws, ws ∈ white_space) l
         ∧ Forall (λ ws, ws ∈ white_space) r
         ∧ s = joined l +:+ trim s +:+ joined r
         ∧ (∀ ws t, ws ∈ white_space → trim s ≠ ws +:+ t)
         ∧ (∀ ws t, ws ∈ white_space → trim s ≠ t +:+ ws).
Proof.
  destruct (strip_spec false s) as (l & Hl & Hs & Hfront).
  destruct (strip_spec true (String.rev (trimStart s))) as (r & Hr & Hrev & Hback).
  destruct (joined_rev true r Hr) as (r' & Hr' & Hjoin).
  assert (Hstart : trimStart s = trim s +:+ joined r').
  { rewrite <- (string_rev_involutive (trimStart s)). rewrite Hrev at 1.
    by rewrite string_rev_app, Hjoin. }
  exists l, r'. split_and!; [done|done| | |].
  - rewrite <- Hstart. exact Hs.
  - intros ws t Hin Heq. apply (Hfront ws (t +:+ joined r') Hin).
    fold (trimStart s). by rewrite Hstart, Heq, string_app_assoc.
  - intros ws t Hin Heq. apply (Hback (String.rev ws) (String.rev t)).
    + by apply (white_at_rev false).
    + rewrite <- string_rev_app, <- Heq. unfold trim, trimEnd. by rewrite string_rev_involutive.
Qed.

Lemma trim_blank (l : list string) :
  Forall (λ ws, ws ∈ white_space) l → trim (joined l) = "".
Proof.
  intros Hl. assert (trimStart (joined l) = "") as Hs.
  { induction Hl as [|ws l Hws Hl IH]; [done|]. cbn [joined foldr].
    unfold trimStart. by rewrite (strip_white false). }
  unfold trim. by rewrite Hs.
Qed.

(** ** Basic facts *)

Definition typing (w : World) : list string := typingUsers (react w).

Lemma app_singleton_neq {A} (l : list A) (x : A) : l ++ [x] ≠ l.
Proof.
  intros H. apply (f_equal length) in H. rewrite length_app in H. simpl in H. lia.
Qed.

Lemma filter_absent (u : string) (l : list string) :
  u ∉ l → filter (λ id, id ≠ u) l = l.
Proof.
  induction l as [|x l IH]; intros Hu; [done|].
  apply not_elem_of_cons in Hu as [Hx Hl].
  rewrite filter_cons_True by congruence. by rewrite IH.
Qed.

Lemma filter_removes (u : string) (l : list string) :
  u ∉ filter (λ id, id ≠ u) l.
Proof. rewrite list_elem_of_filter. tauto. Qed.

Lemma NoDup_retyped (u : string) (l : list string) :
  NoDup l → NoDup (filter (λ id, id ≠ u) l ++ [u]).
Proof.
  intros Hl. apply NoDup_app. split; [by apply NoDup_filter|]. split.
  - intros x Hx Hin. apply list_elem_of_singleton in Hin as ->.
    by apply filter_removes in Hx.
  - apply NoDup_singleton.
Qed.

Lemma isTyping_nonempty (s : ChatState) : isTyping s = true ↔ typingUsers s ≠ [].
Proof.
  unfold isTyping. destruct (typingUsers s); simpl; split; intros; done.
Qed.

(** ** The operations of the context value *)

(** C2, as claimed, fails: connected and in room r1, a text that trims to
    the empty string is sent, and so is a message for room r2. *)
Lemma sendMessage_blank_or_other_room_emits :
  isConnected (react in_r1) = true
  ∧ currentRoom (react in_r1) = Some "r1"
  ∧ trim "  " = ""
  ∧ emitted (sendMessage "r1" "  " "bob" in_r1)
    = emitted in_r1 ++ [(1, send_message "r1" "  " "bob")]
  ∧ emitted (sendMessage "r2" "hello" "bob" in_r1)
    = emitted in_r1 ++ [(1, send_message "r2" "hello" "bob")].
Proof. vm_compute. repeat split. Qed.

(** C2 (amended): [sendMessage] is a no-op exactly when the session is not
    connected (no socket, or [isConnected] false). It never changes the
    React state; when connected it emits one [send_message] signal with
    the arguments as given, whatever the text and the current room. *)
Theorem sendMessage_noop_unless_connected (w : World) (roomId message receiverId : string) :
  let w' := sendMessage roomId message receiverId w in
  (w' = w ↔ socket (react w) = None ∨ isConnected (react w) = false)
  ∧ react w' = react w
  ∧ pending w' = pending w
  ∧ (∀ s, socket (react w) = Some s → isConnected (react w) = true →
       emitted w' = emitted w ++ [(s, send_message roomId message receiverId)]).
Proof.
  unfold sendMessage.
  destruct (socket (react w)) as [s|] eqn:Hs, (isConnected (react w)) eqn:Hc; simpl.
  - repeat split; try done.
    + intros H. apply (f_equal emitted) in H. simpl in H.
      by apply app_singleton_neq in H.
    + intros [?|?]; done.
    + by intros s' [= ->] _.
  - repeat split; auto; done.
  - repeat split; auto; done.
  - repeat split; auto; done.
Qed.

Lemma sendMessage_noop_unless_connected_witness :
  sendMessage "r1" "hi" "bob" (mount alice) = mount alice
  ∧ emitted (sendMessage "r1" "hi" "bob" in_r1)
    = emitted in_r1 ++ [(1, send_message "r1" "hi" "bob")].
Proof.
  split.
  - apply (sendMessage_noop_unless_connected (mount alice) "r1" "hi" "bob").
    left. reflexivity.
  - apply (sendMessage_noop_unless_connected in_r1 "r1" "hi" "bob"); reflexivity.
Defined.

(** C5, as claimed, fails: r1 is the current room and the log holds a
    message; [joinRoom "r1"] emits the join signal again, empties the log
    and issues a new history request. *)
Lemma joinRoom_current_room_rejoins :
  currentRoom (react chatting) = Some "r1"
  ∧ messages (react chatting) = [msg "m1" "r1" "bob" "alice" "hi"]
  ∧ emitted (joinRoom "r1" chatting) = emitted chatting ++ [(1, join_room "r1")]
  ∧ messages (react (joinRoom "r1" chatting)) = []
  ∧ pending (joinRoom "r1" chatting) = pending chatting ++ [GetHistory "r1"].
Proof. vm_compute. repeat split. Qed.

(** C5 (amended): [joinRoom] is a no-op exactly when the session is not
    connected. When connected, also for the room that is already current,
    it emits [join_room], sets the current room, empties the message log
    and issues the history request. *)
Theorem joinRoom_noop_unless_connected (w : World) (roomId : string) :
  let w' := joinRoom roomId w in
  (w' = w ↔ socket (react w) = None ∨ isConnected (react w) = false)
  ∧ (∀ s, socket (react w) = Some s → isConnected (react w) = true →
       emitted w' = emitted w ++ [(s, join_room roomId)]
       ∧ currentRoom (react w') = Some roomId
       ∧ messages (react w') = []
       ∧ pending w' = pending w ++ [GetHistory roomId]).
Proof.
  unfold joinRoom.
  destruct (socket (react w)) as [s|] eqn:Hs, (isConnected (react w)) eqn:Hc; simpl.
  - split; [split|].
    + intros H. apply (f_equal emitted) in H. simpl in H.
      by apply app_singleton_neq in H.
    + intros [?|?]; done.
    + by intros s' [= ->] _.
  - repeat split; auto; done.
  - repeat split; auto; done.
  - repeat split; auto; done.
Qed.

Lemma joinRoom_noop_unless_connected_witness :
  joinRoom "r1" (mount alice) = mount alice
  ∧ messages (react (joinRoom "r1" chatting)) = [].
Proof.
  split.
  - apply (joinRoom_noop_unless_connected (mount alice) "r1"). left. reflexivity.
  - apply (joinRoom_noop_unless_connected chatting "r1" ) with (s := 1); reflexivity.
Defined.

(** C6, as claimed, fails: in room r1, [leaveRoom "r2"] sets the current
    room to none. *)
Lemma leaveRoom_other_room_clears :
  currentRoom (react in_r1) = Some "r1"
  ∧ currentRoom (react (leaveRoom "r2" in_r1)) = None
  ∧ emitted (leaveRoom "r2" in_r1) = emitted in_r1 ++ [(1, leave_room "r2")].
Proof. vm_compute. repeat split. Qed.

(** C6 (amended): in every connected state [leaveRoom roomId] emits the
    leave signal and sets the current room to none, whether or not
    [roomId] is the joined room; nothing else of the React state changes. *)
Theorem leaveRoom_clears_current_room (w : World) (roomId : string) (s : SockId) :
  socket (react w) = Some s →
  isConnected (react w) = true →
  let w' := leaveRoom roomId w in
  emitted w' = emitted w ++ [(s, leave_room roomId)]
  ∧ react w' = setCurrentRoom None (react w)
  ∧ currentRoom (react w') = None.
Proof. intros Hs Hc. unfold leaveRoom. rewrite Hs, Hc. done. Qed.

Lemma leaveRoom_clears_current_room_witness :
  currentRoom (react (leaveRoom "r1" in_r1)) = None.
Proof.
  apply (leaveRoom_clears_current_room in_r1 "r1" 1); reflexivity.
Defined.

(** C7, as claimed, fails: after the connection dropped with one unread
    message, [markAsRead] leaves the count at 1. *)
Lemma markAsRead_disconnected_keeps_count :
  isConnected (react dropped) = false
  ∧ unreadCount (react dropped) = 1%N
  ∧ unreadCount (react (markAsRead "r2" dropped)) = 1%N.
Proof. vm_compute. repeat split. Qed.

(** C7 (amended): in every connected state [markAsRead roomId] emits the
    signal and sets the unread count to 0 whatever it was, leaving the
    message log, the current room and the room list as they are; when the
    session is not connected it does nothing. *)
Theorem markAsRead_resets_when_connected (w : World) (roomId : string) :
  let w' := markAsRead roomId w in
  (∀ s, socket (react w) = Some s → isConnected (react w) = true →
     unreadCount (react w') = 0%N
     ∧ messages (react w') = messages (react w)
     ∧ currentRoom (react w') = currentRoom (react w)
     ∧ chatRooms (react w') = chatRooms (react w)
     ∧ emitted w' = emitted w ++ [(s, mark_as_read roomId)])
  ∧ (socket (react w) = None ∨ isConnected (react w) = false → w' = w).
Proof.
  unfold markAsRead.
  destruct (socket (react w)) as [s|] eqn:Hs, (isConnected (react w)) eqn:Hc; simpl;
    split; try done.
  - by intros s' [= ->] _.
  - intros [?|?]; done.
Qed.

Lemma markAsRead_resets_when_connected_witness :
  unreadCount (react (markAsRead "r2" (step alice (connect 1) dropped))) = 0%N
  ∧ markAsRead "r2" dropped = dropped.
Proof.
  split.
  - apply (markAsRead_resets_when_connected (step alice (connect 1) dropped) "r2")
      with (s := 1); reflexivity.
  - apply (markAsRead_resets_when_connected dropped "r2"). right. reflexivity.
Defined.

Lemma remove_first_last (r : Request) (l : list Request) :
  is_Some (remove_first r (l ++ [r])).
Proof.
  induction l as [|x l [l' IH]]; simpl.
  - rewrite decide_True by done. by eexists.
  - destruct (decide (x = r)); [by eexists|]. rewrite IH. by eexists.
Qed.

(** C8: a call of [fetchChatRooms] with credentials issues one request;
    when that request is rejected or answered with a non-OK status, one
    console line is written and the React state, the room list included,
    stays as it was; when it succeeds the room list becomes the fetched
    list (the empty list when the body has none) and nothing else of the
    React state changes. *)
Theorem fetchChatRooms_fail_soft (a : Auth) (u : User.t) (w : World)
    (r : Response ChatRoom.t) :
  user a = Some u →
  truthy (token a) = true →
  ∃ endpoint,
    fetchChatRooms a w = request (GetChatRooms endpoint) w
    ∧ let w' := step a (rooms_response endpoint r) (fetchChatRooms a w) in
      match r with
      | Ok body =>
          react w' = setChatRooms (default [] body) (react w)
          ∧ chatRooms (react w') = default [] body
          ∧ console w' = console w
      | NotOk status =>
          react w' = react w ∧ console w' = console w ++ [LogFetchRoomsFailed status]
      | Rejected =>
          react w' = react w ∧ console w' = console w ++ [LogFetchRoomsError]
      end
      ∧ emitted w' = emitted w
      ∧ timers w' = timers w.
Proof.
  intros Hu Ht. unfold fetchChatRooms. rewrite Hu, Ht.
  eexists. split; [reflexivity|].
  unfold step, request; simpl.
  destruct (remove_first_last (GetChatRooms
    match User.role u with
    | User.student => "/student/chat-rooms"
    | _ => "/recruiter/chat-rooms"
    end) (pending w)) as [rest ->].
  destruct r; simpl; repeat split.
Qed.

Lemma fetchChatRooms_fail_soft_witness :
  ∃ endpoint,
    chatRooms (react (step alice (rooms_response endpoint (NotOk 500))
                        (fetchChatRooms alice in_r1)))
    = chatRooms (react in_r1).
Proof.
  destruct (fetchChatRooms_fail_soft alice
              (User.mk "u1" "alice" "alice@example.org" User.student) in_r1 (NotOk 500)
              eq_refl eq_refl) as (ep & _ & [Hr _] & _).
  exists ep. by rewrite Hr.
Defined.

(** ** Inbound events *)

(** C3, as claimed, fails twice in the session of a first mount with r1
    joined: a message for room r2 is appended to the log all the same,
    and a message for the joined room r1 raises the unread count from 0
    to 1, since the handler compares with the [currentRoom] its closure
    took when the connection effect ran (null), not with the joined
    room. *)
Lemma new_message_other_room_appended :
  currentRoom (react in_r1) = Some "r1"
  ∧ messages (react in_r1) = []
  ∧ messages (react (step alice (inbound 1 (new_message (msg "m2" "r2" "carol" "alice" "hello")))
                       in_r1))
    = [msg "m2" "r2" "carol" "alice" "hello"]
  ∧ room_seen in_r1 = None
  ∧ unreadCount (react in_r1) = 0%N
  ∧ unreadCount (react (step alice (inbound 1 (new_message (msg "m1" "r1" "bob" "alice" "hi")))
                          in_r1))
    = 1%N.
Proof. vm_compute. repeat split. Qed.

(** C3 (amended): in every world, every run of the handler appends the
    message to the end of the message log, whatever its room. Where the
    room the handler compares with is the joined room, the unread count
    is unchanged for a message of that room and grows by exactly 1 for a
    message of any other room. In general the handler compares with
    [room_seen], the [currentRoom] of the render in which the connection
    effect ran: the count is unchanged when the message is for that room
    and grows by 1 otherwise, also for a message of the joined room.
    Nothing else of the state changes. *)
Theorem on_new_message_appends (w : World) (m : Message.t) :
  let w' := on_new_message m w in
  messages (react w') = messages (react w) ++ [m]
  ∧ (room_seen w = currentRoom (react w) →
       (currentRoom (react w) = Some (Message.room_id m) →
          unreadCount (react w') = unreadCount (react w))
       ∧ (currentRoom (react w) ≠ Some (Message.room_id m) →
          unreadCount (react w') = (unreadCount (react w) + 1)%N))
  ∧ unreadCount (react w')
    = (if bool_decide (room_seen w = Some (Message.room_id m))
       then unreadCount (react w)
       else unreadCount (react w) + 1)%N
  ∧ currentRoom (react w') = currentRoom (react w)
  ∧ chatRooms (react w') = chatRooms (react w)
  ∧ typingUsers (react w') = typingUsers (react w)
  ∧ isConnected (react w') = isConnected (react w)
  ∧ socket (react w') = socket (react w)
  ∧ room_seen w' = room_seen w
  ∧ emitted w' = emitted w
  ∧ timers w' = timers w
  ∧ pending w' = pending w.
Proof.
  unfold on_new_message. simpl.
  destruct (decide (room_seen w = Some (Message.room_id m))) as [Heq|Hne].
  - rewrite (bool_decide_eq_false_2 (Some (Message.room_id m) ≠ room_seen w))
      by (intros H; by apply H).
    rewrite bool_decide_eq_true_2 by done. simpl. split_and!; try done.
    intros Hseen. split; [done|]. intros Hcur. by rewrite <- Hseen in Hcur.
  - rewrite (bool_decide_eq_true_2 (Some (Message.room_id m) ≠ room_seen w))
      by (intros H; by apply Hne).
    rewrite bool_decide_eq_false_2 by done. simpl. split_and!; try done.
    intros Hseen. split; [|done]. intros Hcur. by rewrite <- Hseen in Hcur.
Qed.

Lemma on_new_message_appends_witness :
  unreadCount (react (on_new_message (msg "m1" "r1" "bob" "alice" "hi") back_in_r1)) = 0%N
  ∧ unreadCount (react (on_new_message (msg "m2" "r2" "carol" "alice" "hello") back_in_r1))
    = 1%N.
Proof.
  split.
  - destruct (on_new_message_appends back_in_r1 (msg "m1" "r1" "bob" "alice" "hi"))
      as (_ & H & _).
    destruct (H eq_refl) as [H1 _]. by apply H1.
  - destruct (on_new_message_appends back_in_r1 (msg "m2" "r2" "carol" "alice" "hello"))
      as (_ & H & _).
    destruct (H eq_refl) as [_ H2]. apply H2. vm_compute. congruence.
Defined.

(** C1 at its failing input. [joinRoom "A"], then [joinRoom "B"], then the
    history of A arrives: the log becomes A's history while B is the
    current room. Likewise a [chat_history] event is matched against the
    room the handlers hold (r1 here), not the joined one (B). In any
    world the continuation of [joinRoom] sets the log to the body it
    received without looking at the current room. *)
Theorem stale_history_replaces_log :
  let mA := msg "a1" "A" "bob" "alice" "hi" in
  let m1 := msg "m1" "r1" "bob" "alice" "hi" in
  let w := run alice [call_joinRoom "A"; call_joinRoom "B";
                      history_response "A" (Ok (Some [mA]))] online in
  let w1 := run alice [call_joinRoom "B"; history_response "B" (Ok (Some []));
                       inbound 1 (chat_history "r1" [m1])] back_in_r1 in
  (currentRoom (react w) = Some "B" ∧ messages (react w) = [mA])
  ∧ (currentRoom (react w1) = Some "B" ∧ messages (react w1) = [m1])
  ∧ (∀ w' roomId body,
       messages (react (joinRoom_resume roomId (Ok body) w')) = default [] body).
Proof.
  cbv zeta. split_and!; [vm_compute; reflexivity ..|]. intros w' roomId body. reflexivity.
Qed.

(** ** Path negotiation *)

(** C4 at its failing input: only the second mount point answers. Each
    event below is one the sockets can deliver ([schedule_ok]). When the
    effect body's socket reports its error first, both retry chains move
    on to the third path: ["/ws/socket.io"] is never tried, five failed
    attempts are logged and the session ends disconnected with nothing
    left to happen. When [attemptConnection]'s socket reports first, the
    second path connects after one failed attempt, but on a socket that
    never gets the chat handlers: [socket] stays null, so [joinRoom] does
    nothing. *)
Theorem negotiation_skips_working_path :
  let w := run alice inline_error_first (mount alice) in
  let w2 := run alice attempt_error_first (mount alice) in
  SOCKET_PATHS !! 1 = Some "/ws/socket.io"
  ∧ (schedule_ok only_second alice inline_error_first (mount alice) = true
     ∧ map s_path (socks w)
       = ["/socket.io"; "/socket.io"; "/socketio"; "/socketio"; "/api/socket.io"]
     ∧ failed_attempts w = 5
     ∧ isConnected (react w) = false
     ∧ timers w = []
     ∧ forallb (λ s, negb (can_connect s)) (socks w) = true)
  ∧ (schedule_ok only_second alice attempt_error_first (mount alice) = true
     ∧ failed_attempts w2 = 1
     ∧ isConnected (react w2) = true
     ∧ map s_chat (socks w2) = [0; 0; 0]
     ∧ socket (react w2) = None
     ∧ joinRoom "r1" w2 = w2).
Proof. vm_compute. repeat split. Qed.

(** ** The typing set *)

Ltac open_world :=
  unfold typing, joinRoom, joinRoom_resume, leaveRoom, sendMessage, startTyping,
    stopTyping, markAsRead, clearMessages, fetchChatRooms, fetchChatRooms_resume,
    on_new_message, on_chat_history, on_error, on_room_joined, on_room_left,
    on_connect_error, on_connect, close, on_disconnect, attemptConnection,
    retry_timeout, tryConnection, enable_reconnection, setupEventHandlers.

Ltac same_typing :=
  intros; open_world; simpl;
  repeat (case_match; simpl; try reflexivity); try reflexivity.

Lemma typing_on_disconnect ls w : typing (on_disconnect ls w) = typing w.
Proof. same_typing. Qed.

Lemma typing_close c w : typing (close c w) = typing w.
Proof. same_typing. Qed.

Lemma typing_on_connect ls w : typing (on_connect ls w) = typing w.
Proof. same_typing. Qed.

Lemma typing_on_connect_error ls w : typing (on_connect_error ls w) = typing w.
Proof.
  unfold on_connect_error.
  destruct ls; simpl; repeat case_match; simpl;
    try (unfold typing; simpl; fold (typing (close (currentSocket w)
           (set_pathIndex (S (pathIndex w))
              (log (LogConnectionError (SOCKET_PATHS !! pathIndex w)) w)))));
    rewrite ?typing_close; reflexivity.
Qed.

Lemma typing_attemptConnection w : typing (attemptConnection w) = typing w.
Proof. same_typing. Qed.

Lemma typing_retry_timeout w : typing (retry_timeout w) = typing w.
Proof. same_typing. Qed.

(** Every handler and every timer callback keeps the typing set free of
    duplicates. *)
Lemma handle_NoDup ev w : NoDup (typing w) → NoDup (typing (handle ev w)).
Proof.
  intros Hw. destruct ev; simpl; unfold on_user_typing, on_user_stopped_typing;
    open_world; simpl; repeat (case_match; simpl); try assumption.
  - by apply NoDup_retyped.
  - by apply NoDup_filter.
Qed.

Lemma fire_NoDup t w : NoDup (typing w) → NoDup (typing (fire t w)).
Proof.
  intros Hw. destruct t; simpl.
  - by rewrite typing_attemptConnection.
  - by rewrite typing_retry_timeout.
  - by apply NoDup_filter.
Qed.

Lemma iter_handle_NoDup ev n w :
  NoDup (typing w) → NoDup (typing (Nat.iter n (handle ev) w)).
Proof. intros Hw. induction n; simpl; [done|]. by apply handle_NoDup. Qed.

Lemma foldl_fire_NoDup (l : list (N * Timer)) w :
  NoDup (typing w) → NoDup (typing (foldl (λ w p, fire p.2 w) w l)).
Proof.
  revert w. induction l as [|p l IH]; intros w Hw; simpl; [done|].
  apply IH. by apply fire_NoDup.
Qed.

Lemma step_NoDup a e w : NoDup (typing w) → NoDup (typing (step a e w)).
Proof.
  intros Hw. destruct e; simpl.
  1-8: by (same_typing).
  - case_match; [|done]. by (same_typing).
  - case_match; [|done]. by (same_typing).
  - repeat case_match; try done. by rewrite typing_on_connect.
  - repeat case_match; try done. by rewrite typing_on_connect_error.
  - repeat case_match; try done. by rewrite typing_on_disconnect.
  - repeat case_match; try done. by apply iter_handle_NoDup.
  - unfold pass_time. by apply foldl_fire_NoDup.
Qed.

Lemma run_NoDup a evs w : NoDup (typing w) → NoDup (typing (run a evs w)).
Proof.
  revert w. induction evs as [|e evs IH]; intros w Hw; simpl; [done|].
  apply IH. by apply step_NoDup.
Qed.

Lemma insert_timer_elem (due : N) (t : Timer) (q : list (N * Timer)) :
  (due, t) ∈ insert_timer due t q.
Proof.
  induction q as [|[d t'] q IH]; simpl; [by left|].
  case_match; [by right|by left].
Qed.

Lemma typing_timeout_idle (u : string) (w : World) :
  u ∉ typing w → typing_timeout u w = w.
Proof.
  intros Hu. destruct w as [[] ]; unfold typing_timeout, typing in *; simpl in *.
  unfold update, setTypingUsers; simpl. by rewrite filter_absent.
Qed.

Lemma fire_keeps_absent (t : Timer) (u : string) (w : World) :
  u ∉ typing w → u ∉ typing (fire t w).
Proof.
  intros Hu. destruct t; simpl.
  - by rewrite typing_attemptConnection.
  - by rewrite typing_retry_timeout.
  - unfold typing; simpl. rewrite list_elem_of_filter. tauto.
Qed.

Lemma foldl_fire_keeps_absent (l : list (N * Timer)) (u : string) (w : World) :
  u ∉ typing w → u ∉ typing (foldl (λ w p, fire p.2 w) w l).
Proof.
  revert w. induction l as [|p l IH]; intros w Hu; simpl; [done|].
  apply IH. by apply fire_keeps_absent.
Qed.

Lemma foldl_fire_removes (l : list (N * Timer)) (d : N) (u : string) (w : World) :
  (d, TimerTyping u) ∈ l → u ∉ typing (foldl (λ w p, fire p.2 w) w l).
Proof.
  revert w. induction l as [|p l IH]; intros w Hin; [by apply elem_of_nil in Hin|].
  apply elem_of_cons in Hin as [<-|Hin]; simpl.
  - apply foldl_fire_keeps_absent. apply filter_removes.
  - by apply IH.
Qed.

(** Once the clock has passed the instant a typing timer is due, its user
    is out of the typing set, whatever else was due. *)
Lemma pass_time_removes (dt d : N) (u : string) (w : World) :
  (d, TimerTyping u) ∈ timers w → (d ≤ now w + dt)%N → u ∉ typing (pass_time dt w).
Proof.
  intros Hin Hd. unfold pass_time. apply foldl_fire_removes with (d := d).
  apply list_elem_of_filter. by split.
Qed.

Lemma pass_time_keeps_absent (dt : N) (u : string) (w : World) :
  u ∉ typing w → u ∉ typing (pass_time dt w).
Proof. intros Hu. unfold pass_time. by apply foldl_fire_keeps_absent. Qed.

(** *** Timers stay pending until they are due *)

Ltac same_field :=
  intros; unfold on_user_typing, on_user_stopped_typing, typing_timeout;
  open_world; unfold setTimeout; simpl;
  repeat (case_match; simpl; try reflexivity); try reflexivity.

Lemma insert_timer_keeps (x : N * Timer) (due : N) (t : Timer) (q : list (N * Timer)) :
  x ∈ q → x ∈ insert_timer due t q.
Proof.
  induction q as [|[d t'] q IH]; simpl; intros Hx; [by apply elem_of_nil in Hx|].
  case_match.
  - apply elem_of_cons in Hx as [->|Hx]; [by left|]. right. by apply IH.
  - by right.
Qed.

Lemma now_close c w : now (close c w) = now w.
Proof. same_field. Qed.

Lemma timers_close c w : timers (close c w) = timers w.
Proof. same_field. Qed.

Lemma now_on_connect_error ls w : now (on_connect_error ls w) = now w.
Proof.
  unfold on_connect_error. destruct ls; simpl; repeat case_match; simpl;
    rewrite ?now_close; reflexivity.
Qed.

Lemma timers_on_connect_error x ls w :
  x ∈ timers w → x ∈ timers (on_connect_error ls w).
Proof.
  intros Hx. unfold on_connect_error. destruct ls; simpl; repeat case_match; simpl;
    try apply insert_timer_keeps; rewrite ?timers_close; exact Hx.
Qed.

Lemma now_handle ev w : now (handle ev w) = now w.
Proof. destruct ev; simpl; same_field. Qed.

Lemma timers_handle x ev w : x ∈ timers w → x ∈ timers (handle ev w).
Proof.
  intros Hx. destruct ev; simpl; unfold on_user_typing, on_user_stopped_typing;
    open_world; simpl; repeat (case_match; simpl); try exact Hx.
  by apply insert_timer_keeps.
Qed.

Lemma now_iter_handle ev n w : now (Nat.iter n (handle ev) w) = now w.
Proof. induction n as [|n IH]; simpl; [done|]. by rewrite now_handle. Qed.

Lemma timers_iter_handle x ev n w :
  x ∈ timers w → x ∈ timers (Nat.iter n (handle ev) w).
Proof. intros Hx. induction n as [|n IH]; simpl; [done|]. by apply timers_handle. Qed.

Lemma now_fire t w : now (fire t w) = now w.
Proof. destruct t; simpl; same_field. Qed.

Lemma timers_fire t w : timers (fire t w) = timers w.
Proof. destruct t; simpl; same_field. Qed.

Lemma foldl_fire_clock (l : list (N * Timer)) w :
  now (foldl (λ w p, fire p.2 w) w l) = now w
  ∧ timers (foldl (λ w p, fire p.2 w) w l) = timers w.
Proof.
  revert w. induction l as [|p l IH]; intros w; simpl; [done|].
  destruct (IH (fire p.2 w)) as [-> ->]. by rewrite now_fire, timers_fire.
Qed.

Lemma now_pass_time dt w : now (pass_time dt w) = (now w + dt)%N.
Proof. unfold pass_time. by rewrite (proj1 (foldl_fire_clock _ _)). Qed.

Lemma timers_pass_time x dt w :
  x ∈ timers w → (now w + dt < x.1)%N → x ∈ timers (pass_time dt w).
Proof.
  intros Hx Hlt. unfold pass_time. rewrite (proj2 (foldl_fire_clock _ _)). simpl.
  apply list_elem_of_filter. split; [lia|done].
Qed.

Lemma now_step a e w : (now w ≤ now (step a e w))%N.
Proof.
  destruct e; simpl.
  1-8: by (same_field).
  - case_match; [|done]. by (same_field).
  - case_match; [|done]. by (same_field).
  - repeat case_match; try done. by (same_field).
  - repeat case_match; try done. by rewrite now_on_connect_error.
  - repeat case_match; try done. by (same_field).
  - repeat case_match; try done. by rewrite now_iter_handle.
  - rewrite now_pass_time. lia.
Qed.

Lemma timers_step x a e w :
  x ∈ timers w → (now (step a e w) < x.1)%N → x ∈ timers (step a e w).
Proof.
  intros Hx Hlt. destruct e; simpl in *.
  1-8: by (same_field).
  - case_match; [|done]. by (same_field).
  - case_match; [|done]. by (same_field).
  - repeat case_match; try done. by (same_field).
  - repeat case_match; try done. by apply timers_on_connect_error.
  - repeat case_match; try done. by (same_field).
  - repeat case_match; try done. by apply timers_iter_handle.
  - rewrite now_pass_time in Hlt. by apply timers_pass_time.
Qed.

Lemma now_run a evs w : (now w ≤ now (run a evs w))%N.
Proof.
  revert w. induction evs as [|e evs IH]; intros w; simpl; [done|].
  etrans; [apply (now_step a e)|apply IH].
Qed.

(** A timer set before stays pending through any sequence of events for
    as long as the clock has not reached its due time. *)
Lemma timers_run x a evs w :
  x ∈ timers w → (now (run a evs w) < x.1)%N → x ∈ timers (run a evs w).
Proof.
  revert w. induction evs as [|e evs IH]; intros w Hx Hlt; simpl in *; [done|].
  apply IH; [|done]. apply timers_step; [done|].
  eapply N.le_lt_trans; [apply (now_run a evs)|done].
Qed.

Lemma iter_preserves {A} (P : A → Prop) (f : A → A) (n : nat) (x : A) :
  (∀ y, P y → P (f y)) → P x → P (Nat.iter n f x).
Proof. intros Hf Hx. induction n as [|n IH]; simpl; auto. Qed.

Lemma foldl_fire_preserves (P : World → Prop) (l : list (N * Timer)) (w : World) :
  (∀ t w, P w → P (fire t w)) → P w → P (foldl (λ w p, fire p.2 w) w l).
Proof.
  intros Hf. revert w. induction l as [|p l IH]; intros w Hw; simpl; [done|].
  apply IH. by apply Hf.
Qed.

Lemma room_seen_handle ev w : room_seen (handle ev w) = room_seen w.
Proof. destruct ev; simpl; same_field. Qed.

Lemma room_seen_fire t w : room_seen (fire t w) = room_seen w.
Proof. destruct t; simpl; same_field. Qed.

Lemma room_seen_step a e w : room_seen (step a e w) = room_seen w.
Proof.
  destruct e; simpl.
  1-13: try by (same_field).
  - repeat case_match; try done.
    apply (iter_preserves (λ w', room_seen w' = room_seen w)); [|done].
    intros y <-. apply room_seen_handle.
  - unfold pass_time.
    apply (foldl_fire_preserves (λ w', room_seen w' = room_seen w)); [|done].
    intros t y <-. apply room_seen_fire.
Qed.

Lemma room_seen_run a evs w : room_seen (run a evs w) = room_seen w.
Proof.
  revert w. induction evs as [|e evs IH]; intros w; simpl; [done|].
  by rewrite IH, room_seen_step.
Qed.

(** C9: a typing-started event that the handler accepts (it names the
    room the handlers hold and another user) puts the user in the typing
    set and sets a timer 3000 ms ahead; once that much time has passed the
    user is out of the set with no stop signal needed, and whatever
    happens before the timer is due, the user is out of the set at the
    moment the clock passes that instant. A typing-stopped
    event for the same user and room removes the entry at once, and the
    timer's callback then changes nothing, as it does in any world where
    the user is absent; in general the callback only takes that user out
    of the typing set. The same holds for a typing-stopped event that
    arrives later, after any sequence of events: it takes exactly that
    user out of the typing set, keeps every other entry in its place and
    changes nothing else of the world, and from then on neither the
    timer's callback nor the passing of time changes the set for that
    user. *)
Theorem typing_entry_expires (w : World) (userId roomId : string) :
  room_seen w = Some roomId →
  userId ≠ user_seen w →
  let w1 := on_user_typing userId roomId w in
  let w2 := on_user_stopped_typing userId roomId w1 in
  userId ∈ typingUsers (react w1)
  ∧ ((now w + 3000)%N, TimerTyping userId) ∈ timers w1
  ∧ (∀ dt, (3000 ≤ dt)%N → userId ∉ typingUsers (react (pass_time dt w1)))
  ∧ (∀ a evs dt,
       let w' := run a evs w1 in
       (now w' < now w + 3000)%N → (now w + 3000 ≤ now w' + dt)%N →
       userId ∉ typingUsers (react (pass_time dt w')))
  ∧ (userId ∉ typingUsers (react w2))
  ∧ typing_timeout userId w2 = w2
  ∧ (∀ dt, userId ∉ typingUsers (react (pass_time dt w2)))
  ∧ (∀ w', userId ∉ typingUsers (react w') → typing_timeout userId w' = w')
  ∧ (∀ w' other, other ≠ userId →
       (other ∈ typingUsers (react (typing_timeout userId w'))
        ↔ other ∈ typingUsers (react w')))
  ∧ (∀ a evs,
       let w' := run a evs w1 in
       let w'' := on_user_stopped_typing userId roomId w' in
       w'' = (w' |> update (setTypingUsers (λ prev, filter (λ id, id ≠ userId) prev)))
       ∧ typingUsers (react w'') = filter (λ id, id ≠ userId) (typingUsers (react w'))
       ∧ (userId ∉ typingUsers (react w''))
       ∧ (∀ other, other ≠ userId →
            (other ∈ typingUsers (react w'') ↔ other ∈ typingUsers (react w')))
       ∧ typing_timeout userId w'' = w''
       ∧ (∀ dt, userId ∉ typingUsers (react (pass_time dt w'')))).
Proof.
  intros Hroom Hself w1 w2.
  assert (Hw1 : w1 = setTimeout (TimerTyping userId) 3000
                       (update (setTypingUsers
                          (λ prev, filter (λ id, id ≠ userId) prev ++ [userId])) w)).
  { unfold w1, on_user_typing. rewrite Hroom.
    rewrite bool_decide_eq_true_2 by done. by rewrite bool_decide_eq_true_2. }
  assert (Htimer : ((now w + 3000)%N, TimerTyping userId) ∈ timers w1).
  { rewrite Hw1. simpl. apply insert_timer_elem. }
  assert (Hnow : now w1 = now w) by (by rewrite Hw1).
  assert (Hw2 : userId ∉ typing w2).
  { unfold w2, on_user_stopped_typing.
    replace (room_seen w1) with (Some roomId) by (by rewrite Hw1).
    rewrite bool_decide_eq_true_2 by done. apply filter_removes. }
  split_and!.
  - rewrite Hw1. simpl. apply elem_of_app. right. by left.
  - done.
  - intros dt Hdt. apply pass_time_removes with (d := (now w + 3000)%N); [done|].
    rewrite Hnow. lia.
  - intros a evs dt w' Hbefore Hafter.
    apply pass_time_removes with (d := (now w + 3000)%N); [|done].
    by apply timers_run.
  - done.
  - by apply typing_timeout_idle.
  - intros dt. by apply pass_time_keeps_absent.
  - intros w'. apply typing_timeout_idle.
  - intros w' other Hne. simpl. rewrite list_elem_of_filter. tauto.
  - intros a evs w' w''.
    assert (Hw'' : w'' = update (setTypingUsers (λ prev, filter (λ id, id ≠ userId) prev)) w').
    { unfold w'', on_user_stopped_typing.
      replace (room_seen w') with (Some roomId)
        by (unfold w'; by rewrite room_seen_run, Hw1).
      by rewrite bool_decide_eq_true_2. }
    assert (Hout : userId ∉ typing w'') by (rewrite Hw''; apply filter_removes).
    split_and!.
    + done.
    + by rewrite Hw''.
    + done.
    + intros other Hne. rewrite Hw''. simpl. rewrite list_elem_of_filter. tauto.
    + by apply typing_timeout_idle.
    + intros dt. by apply pass_time_keeps_absent.
Qed.

Lemma typing_entry_expires_witness :
  "bob" ∈ typingUsers (react (on_user_typing "bob" "r1" back_in_r1))
  ∧ "bob" ∉ typingUsers (react (pass_time 3000 (on_user_typing "bob" "r1" back_in_r1))).
Proof.
  assert (H := typing_entry_expires back_in_r1 "bob" "r1" eq_refl
                 ltac:(vm_compute; congruence)).
  simpl in H. destruct H as (H1 & _ & H3 & _).
  split; [exact H1|]. apply H3. lia.
Defined.

Lemma typing_boot a s0 : typing (boot a s0) = typingUsers s0.
Proof.
  unfold boot, connection_effect, fetchChatRooms. same_typing.
Qed.

(** C10: the provider mounts with an empty typing set, and from any world
    whose typing set has no duplicates every sequence of calls, responses, socket
    events and timers leads to a world whose typing set has no
    duplicates and where [isTyping] holds exactly when the set is not
    empty; a typing-started event that is accepted there for a user who
    is already in the set moves the entry to the end and leaves the size
    of the set as it was. *)
Theorem typing_set_invariant (a : Auth) (w0 : World) (evs : list Event) :
  NoDup (typingUsers (react w0)) →
  let w := run a evs w0 in
  typingUsers (react (mount a)) = []
  ∧ NoDup (typingUsers (react w))
  ∧ (isTyping (react w) = true ↔ typingUsers (react w) ≠ [])
  ∧ (∀ userId roomId,
       room_seen w = Some roomId → userId ≠ user_seen w →
       let w' := on_user_typing userId roomId w in
       typingUsers (react w')
       = filter (λ id, id ≠ userId) (typingUsers (react w)) ++ [userId]
       ∧ NoDup (typingUsers (react w'))
       ∧ (userId ∈ typingUsers (react w) →
            length (typingUsers (react w')) = length (typingUsers (react w)))).
Proof.
  intros H0 w. assert (Hw : NoDup (typing w)) by (by apply run_NoDup).
  split_and!.
  - apply (typing_boot a initialState).
  - exact Hw.
  - apply isTyping_nonempty.
  - intros userId roomId Hroom Hself w'.
    assert (Hw' : typing w' = filter (λ id, id ≠ userId) (typing w) ++ [userId]).
    { unfold w', on_user_typing. rewrite Hroom.
      rewrite bool_decide_eq_true_2 by done. by rewrite bool_decide_eq_true_2. }
    fold (typing w'). fold (typing w). rewrite Hw'. split_and!.
    + done.
    + by apply NoDup_retyped.
    + intros Hin. rewrite length_app. simpl.
      clear Hw'. induction Hw as [|x l Hx Hl IH]; [by apply elem_of_nil in Hin|].
      destruct (decide (x = userId)) as [->|Hne].
      * rewrite filter_cons_False by (intros ?; done).
        rewrite filter_absent by done. simpl. lia.
      * rewrite filter_cons_True by done. simpl.
        apply elem_of_cons in Hin as [->|Hin]; [done|]. rewrite IH by done. done.
Qed.

Lemma typing_set_invariant_witness :
  let w := run alice [inbound 1 (user_typing "bob" "r1");
                      inbound 1 (user_typing "carol" "r1");
                      inbound 1 (user_typing "bob" "r1")] back_in_r1 in
  typingUsers (react w) = ["carol"; "bob"]
  ∧ NoDup (typingUsers (react w))
  ∧ isTyping (react w) = true.
Proof.
  split; [reflexivity|].
  destruct (typing_set_invariant alice back_in_r1
              [inbound 1 (user_typing "bob" "r1");
               inbound 1 (user_typing "carol" "r1");
               inbound 1 (user_typing "bob" "r1")]
              ltac:(vm_compute; constructor)) as (_ & H1 & H2 & _).
  split; [exact H1|]. apply H2. discriminate.
Defined.

(** * Further properties of the provider *)

(** While the handlers hold no room, nothing enters the typing set. *)
Lemma typing_step_unseen a e w :
  room_seen w = None → typing w = [] → typing (step a e w) = [].
Proof.
  intros Hseen Hw. destruct e; simpl.
  1-8: by (rewrite <- Hw; same_typing).
  - rewrite <- Hw. case_match; [|done]. by (same_typing).
  - rewrite <- Hw. case_match; [|done]. by (same_typing).
  - rewrite <- Hw. repeat case_match; try done. by rewrite typing_on_connect.
  - rewrite <- Hw. repeat case_match; try done. by rewrite typing_on_connect_error.
  - rewrite <- Hw. repeat case_match; try done. by rewrite typing_on_disconnect.
  - repeat case_match; try done.
    apply (iter_preserves (λ w', room_seen w' = None ∧ typing w' = [])); [|done].
    intros y [Hy1 Hy2]. split; [by rewrite room_seen_handle|].
    destruct ev; simpl; try (rewrite <- Hy2; by (same_typing)).
    + unfold on_user_typing. rewrite Hy1. by rewrite bool_decide_eq_false_2.
    + unfold on_user_stopped_typing. rewrite Hy1. by rewrite bool_decide_eq_false_2.
  - unfold pass_time.
    apply (foldl_fire_preserves (λ w', typing w' = [])); [|done].
    intros t y Hy. destruct t; simpl.
    + by rewrite typing_attemptConnection.
    + by rewrite typing_retry_timeout.
    + unfold typing in *. simpl. by rewrite Hy.
Qed.

Lemma room_seen_boot a s0 : room_seen (boot a s0) = None ∨ room_seen (boot a s0) = currentRoom s0.
Proof.
  unfold boot, connection_effect, fetchChatRooms. simpl.
  repeat (case_match; simpl; auto).
Qed.

Lemma run_unseen a evs w :
  room_seen w = None → typing w = [] →
  room_seen (run a evs w) = None ∧ typing (run a evs w) = [].
Proof.
  revert w. induction evs as [|e evs IH]; intros w Hs Ht; simpl; [done|].
  apply IH; [by rewrite room_seen_step|by apply typing_step_unseen].
Qed.

(** X1. In a session that starts with the first mount, the handlers hold
    no room for good: the typing set stays empty and [isTyping] false
    whatever events arrive, a [chat_history] event never touches the
    world, and every run of the [new_message] handler counts the message
    as unread. *)
Theorem first_session_holds_no_room (a : Auth) (evs : list Event) :
  let w := run a evs (mount a) in
  room_seen w = None
  ∧ typingUsers (react w) = []
  ∧ isTyping (react w) = false
  ∧ (∀ room_id roomMessages, on_chat_history room_id roomMessages w = w)
  ∧ (∀ userId roomId, on_user_typing userId roomId w = w)
  ∧ (∀ m, unreadCount (react (on_new_message m w)) = (unreadCount (react w) + 1)%N).
Proof.
  intros w.
  assert (H : room_seen w = None ∧ typing w = []).
  { apply run_unseen; [|apply (typing_boot a initialState)].
    destruct (room_seen_boot a initialState) as [H|H]; exact H. }
  destruct H as [Hseen Htyping]. split_and!.
  - done.
  - done.
  - unfold isTyping. unfold typing in Htyping. by rewrite Htyping.
  - intros r ms. unfold on_chat_history. rewrite Hseen. by rewrite bool_decide_eq_false_2.
  - intros u r. unfold on_user_typing. rewrite Hseen. by rewrite bool_decide_eq_false_2.
  - intros m. unfold on_new_message. simpl. rewrite Hseen.
    by rewrite bool_decide_eq_true_2.
Qed.

Lemma socks_handle ev w : socks (handle ev w) = socks w.
Proof. destruct ev; simpl; same_field. Qed.

Lemma messages_iter_new_message (n : nat) (m : Message.t) (w : World) :
  messages (react (Nat.iter n (on_new_message m) w)) = messages (react w) ++ replicate n m.
Proof.
  induction n as [|n IH]; simpl; [by rewrite app_nil_r|].
  unfold on_new_message at 1. simpl.
  assert (Hm : ∀ w', messages (react
            (if bool_decide (Some (Message.room_id m) ≠ room_seen w')
             then update (setUnreadCount (λ prev, (prev + 1)%N))
                    (update (setMessages (λ prev, prev ++ [m])) w')
             else update (setMessages (λ prev, prev ++ [m])) w'))
          = messages (react w') ++ [m]).
  { intros w'. by case_bool_decide. }
  rewrite Hm, IH, <- app_assoc. f_equal.
  clear. induction n as [|n IH]; simpl; [done|]. by rewrite IH.
Qed.

(** X2. Messages pushed on a connected socket are appended in the order
    they arrive, each as many times as [setupEventHandlers] registered
    the handler on that socket: with one registration the log grows by
    exactly the messages received, in order. *)
Theorem messages_in_arrival_order (a : Auth) (w : World) (i : SockId) (s : Sock)
    (ms : list Message.t) :
  socks w !! i = Some s →
  is_live s = true →
  let w' := run a (map (λ m, inbound i (new_message m)) ms) w in
  messages (react w')
  = messages (react w) ++ mjoin (map (replicate (s_chat s)) ms)
  ∧ (s_chat s = 1 → messages (react w') = messages (react w) ++ ms).
Proof.
  intros Hs Hlive w'.
  assert (H : messages (react w')
              = messages (react w) ++ mjoin (map (replicate (s_chat s)) ms)).
  { unfold w'. clear w'. revert w Hs.
    induction ms as [|m ms IH]; intros w Hs; simpl; [by rewrite app_nil_r|].
    rewrite Hs, Hlive. rewrite IH.
    - rewrite messages_iter_new_message. by rewrite <- app_assoc.
    - rewrite <- Hs. f_equal.
      apply (iter_preserves (λ w', socks w' = socks w)); [|done].
      intros y <-. apply (socks_handle (new_message m)). }
  split; [exact H|]. intros H1. rewrite H, H1. f_equal.
  clear. induction ms as [|m ms IH]; [done|].
  change (m :: mjoin (map (replicate 1) ms) = m :: ms). by f_equal.
Qed.

Lemma messages_in_arrival_order_witness :
  messages (react (run alice [inbound 1 (new_message (msg "m1" "r1" "bob" "alice" "one"));
                              inbound 1 (new_message (msg "m2" "r1" "bob" "alice" "two"))]
                     in_r1))
  = [msg "m1" "r1" "bob" "alice" "one"; msg "m2" "r1" "bob" "alice" "two"].
Proof.
  apply (messages_in_arrival_order alice in_r1 1
           (mkSock "/socket.io" InlineL Live true 1)
           [msg "m1" "r1" "bob" "alice" "one"; msg "m2" "r1" "bob" "alice" "two"]);
    reflexivity.
Defined.

(** X3. A join whose history request fails still joins: the signal is
    emitted, the room is current, the log is empty and stays empty, and
    the failure is one console line. *)
Theorem joinRoom_survives_history_failure (a : Auth) (w : World) (s : SockId)
    (roomId : string) (r : Response Message.t) :
  socket (react w) = Some s →
  isConnected (react w) = true →
  (∀ body, r ≠ Ok body) →
  let w' := run a [call_joinRoom roomId; history_response roomId r] w in
  emitted w' = emitted w ++ [(s, join_room roomId)]
  ∧ currentRoom (react w') = Some roomId
  ∧ messages (react w') = []
  ∧ isConnected (react w') = true
  ∧ length (console w') = S (length (console w)).
Proof.
  intros Hs Hc Hr. simpl. unfold joinRoom. rewrite Hs, Hc. simpl.
  destruct (remove_first_last (GetHistory roomId) (pending w)) as [rest ->].
  destruct r as [|status|body]; simpl.
  - rewrite length_app. simpl. split_and!; try done. lia.
  - rewrite length_app. simpl. split_and!; try done. lia.
  - by destruct (Hr body).
Qed.

Lemma joinRoom_survives_history_failure_witness :
  messages (react (run alice [call_joinRoom "r2"; history_response "r2" (NotOk 503)]
                     chatting)) = []
  ∧ currentRoom (react (run alice [call_joinRoom "r2"; history_response "r2" Rejected]
                          chatting)) = Some "r2".
Proof.
  split.
  - apply (joinRoom_survives_history_failure alice chatting 1 "r2" (NotOk 503));
      [reflexivity|reflexivity|discriminate].
  - apply (joinRoom_survives_history_failure alice chatting 1 "r2" Rejected);
      [reflexivity|reflexivity|discriminate].
Defined.

Lemma emitted_handle ev w : emitted (handle ev w) = emitted w.
Proof. destruct ev; simpl; same_field. Qed.

Lemma emitted_fire t w : emitted (fire t w) = emitted w.
Proof. destruct t; simpl; same_field. Qed.

(** X4. The provider's outgoing traffic is exactly one signal per call
    made while [socket] is set and [isConnected] is true, sent on that
    socket; no socket event, HTTP response or timer emits anything, and
    no call emits while disconnected. *)
Theorem emits_one_signal_per_connected_call (a : Auth) (e : Event) (w : World) :
  emitted (step a e w)
  = emitted w ++ match socket (react w), isConnected (react w), signal_of e with
                 | Some s, true, Some sig => [(s, sig)]
                 | _, _, _ => []
                 end.
Proof.
  destruct e; simpl.
  1-8: same_field; rewrite ?app_nil_r; done.
  all: match goal with
       | |- _ = _ ++ ?m => assert (m = []) as -> by (repeat case_match; done)
       end; rewrite app_nil_r.
  - case_match; [|done]. by (same_field).
  - case_match; [|done]. by (same_field).
  - repeat case_match; try done; by (same_field).
  - repeat case_match; try done; by (same_field).
  - repeat case_match; try done; by (same_field).
  - repeat case_match; try done.
    apply (iter_preserves (λ w', emitted w' = emitted w)); [|done].
    intros y <-. apply emitted_handle.
  - unfold pass_time.
    apply (foldl_fire_preserves (λ w', emitted w' = emitted w)); [|done].
    intros t y <-. apply emitted_fire.
Qed.

Lemma chatRooms_handle ev w : chatRooms (react (handle ev w)) = chatRooms (react w).
Proof. destruct ev; simpl; same_field. Qed.

Lemma chatRooms_fire t w : chatRooms (react (fire t w)) = chatRooms (react w).
Proof. destruct t; simpl; same_field. Qed.

(** X5. The room list changes only when a room-list request that is
    outstanding is answered with an OK response, and then it becomes the
    list of that response; no call, socket event, history response or
    timer touches it. *)
Theorem chatRooms_only_from_rooms_response (a : Auth) (e : Event) (w : World) :
  chatRooms (react (step a e w)) = chatRooms (react w)
  ∨ ∃ endpoint body,
      e = rooms_response endpoint (Ok body)
      ∧ GetChatRooms endpoint ∈ pending w
      ∧ chatRooms (react (step a e w)) = default [] body.
Proof.
  destruct e; simpl.
  1-8: by (left; same_field).
  - left. case_match; [|done]. by (same_field).
  - destruct (remove_first (GetChatRooms endpoint) (pending w)) as [rest|] eqn:Hrm;
      [|by left].
    destruct r as [| |body]; [by left|by left|].
    right. exists endpoint, body. split_and!; [done| |done].
    clear -Hrm. revert rest Hrm. induction (pending w) as [|x l IH]; intros rest Hrm;
      simpl in Hrm; [done|].
    destruct (decide (x = GetChatRooms endpoint)) as [->|]; [by left|].
    destruct (remove_first (GetChatRooms endpoint) l); [|done].
    right. by eapply IH.
  - left. repeat case_match; try done; by (same_field).
  - left. repeat case_match; try done; by (same_field).
  - left. repeat case_match; try done; by (same_field).
  - left. repeat case_match; try done.
    apply (iter_preserves (λ w', chatRooms (react w') = chatRooms (react w))); [|done].
    intros y <-. apply chatRooms_handle.
  - left. unfold pass_time.
    apply (foldl_fire_preserves (λ w', chatRooms (react w') = chatRooms (react w)));
      [|done].
    intros t y <-. apply chatRooms_fire.
Qed.

Lemma unread_handle ev w :
  (unreadCount (react w) ≤ unreadCount (react (handle ev w)))%N
  ∧ ((∀ m, ev ≠ new_message m) →
       unreadCount (react (handle ev w)) = unreadCount (react w)).
Proof.
  destruct ev; simpl.
  1: { unfold on_new_message. simpl. case_bool_decide; simpl; split; try lia.
       all: intros Hnot; by destruct (Hnot message). }
  all: split; [|intros _]; same_field; lia.
Qed.

Lemma unread_fire t w : unreadCount (react (fire t w)) = unreadCount (react w).
Proof. destruct t; simpl; same_field. Qed.

(** X6. The unread count goes down only by [markAsRead] called while
    connected, and then to 0; it goes up only by an inbound
    [new_message] event. Every other event leaves it as it is. *)
Theorem unreadCount_moves_only_by_message_or_markAsRead (a : Auth) (e : Event) (w : World) :
  let n := unreadCount (react w) in
  let n' := unreadCount (react (step a e w)) in
  ((n' < n)%N →
     (∃ roomId, e = call_markAsRead roomId) ∧ n' = 0%N
     ∧ is_Some (socket (react w)) ∧ isConnected (react w) = true)
  ∧ ((n < n')%N → ∃ i m, e = inbound i (new_message m)).
Proof.
  intros n n'. unfold n, n'. clear n n'.
  assert (Hsame : ∀ w', unreadCount (react w') = unreadCount (react w) →
            ((unreadCount (react w') < unreadCount (react w))%N →
               (∃ roomId, e = call_markAsRead roomId) ∧ unreadCount (react w') = 0%N
               ∧ is_Some (socket (react w)) ∧ isConnected (react w) = true)
            ∧ ((unreadCount (react w) < unreadCount (react w'))%N →
                 ∃ i m, e = inbound i (new_message m))).
  { intros w' ->. split; intros; lia. }
  destruct e; simpl.
  1-5: by (apply Hsame; same_field).
  - unfold markAsRead.
    destruct (socket (react w)) as [s|] eqn:Hs, (isConnected (react w)) eqn:Hc; simpl;
      try (split; intros; lia).
    split; [|intros; lia]. intros _. split_and!; eauto.
  - by (apply Hsame; same_field).
  - by (apply Hsame; same_field).
  - apply Hsame. case_match; [|done]. by (same_field).
  - apply Hsame. case_match; [|done]. by (same_field).
  - apply Hsame. repeat case_match; try done; by (same_field).
  - apply Hsame. repeat case_match; try done; by (same_field).
  - apply Hsame. repeat case_match; try done; by (same_field).
  - destruct (socks w !! i) as [s|]; [|by apply Hsame].
    destruct (is_live s); [|by apply Hsame].
    assert (Hle : (unreadCount (react w)
                   ≤ unreadCount (react (Nat.iter (s_chat s) (handle ev) w)))%N).
    { apply (iter_preserves
               (λ w', (unreadCount (react w) ≤ unreadCount (react w'))%N)); [|done].
      intros y Hy. etrans; [exact Hy|]. apply unread_handle. }
    split; [intros; lia|]. intros Hlt.
    destruct ev; try by eauto.
    all: exfalso; revert Hlt; apply N.le_ngt; apply N.eq_le_incl.
    all: apply (iter_preserves
                  (λ w', unreadCount (react w') = unreadCount (react w))); [|done].
    all: intros y <-; by apply unread_handle.
  - apply Hsame. unfold pass_time.
    apply (foldl_fire_preserves
             (λ w', unreadCount (react w') = unreadCount (react w))); [|done].
    intros t y <-. apply unread_fire.
Qed.

(** ** How many sockets the effect opens *)

Lemma retries_pending_insert (due : N) (t : Timer) (q : list (N * Timer)) :
  retries_pending (insert_timer due t q)
  = retries_pending q + (if is_retry_timer t then 1 else 0).
Proof.
  unfold retries_pending. induction q as [|[d t'] q IH]; cbn [insert_timer].
  - simpl. destruct (is_retry_timer t); done.
  - destruct (d <=? due)%N.
    + cbn [List.filter snd]. destruct (is_retry_timer t'); cbn [length]; rewrite IH; lia.
    + cbn [List.filter snd].
      destruct (is_retry_timer t), (is_retry_timer t'); cbn [length]; lia.
Qed.

Lemma retries_pending_split (P : N * Timer → Prop) `{∀ p, Decision (P p)}
    (q : list (N * Timer)) :
  retries_pending (filter P q) + retries_pending (filter (λ p, ¬ P p) q)
  = retries_pending q.
Proof.
  unfold retries_pending. induction q as [|p q IH]; simpl; [done|].
  destruct (decide (P p)) as [Hp|Hp].
  - rewrite filter_cons_True by done. rewrite (filter_cons_False (λ p, ¬ P p)) by tauto.
    simpl. destruct (is_retry_timer p.2); simpl; lia.
  - rewrite filter_cons_False by done. rewrite (filter_cons_True (λ p, ¬ P p)) by done.
    simpl. destruct (is_retry_timer p.2); simpl; lia.
Qed.

Ltac same_shape :=
  intros; unfold shape;
  match goal with
  | |- (?a, ?b, ?c) = (?a', ?b', ?c') =>
      assert (a = a') as -> by (same_field; rewrite ?length_alter; done);
      assert (b = b') as -> by (same_field; done);
      assert (c = c') as -> by (same_field; done);
      reflexivity
  end.

Lemma shape_close c w : shape (close c w) = shape w.
Proof. same_shape. Qed.

Lemma shape_on_connect ls w : shape (on_connect ls w) = shape w.
Proof. same_shape. Qed.

Lemma shape_on_disconnect ls w : shape (on_disconnect ls w) = shape w.
Proof. same_shape. Qed.

Lemma budget_shape w w' : shape w' = shape w → budget w' = budget w.
Proof. unfold shape, budget, retries_left. intros [= -> -> ->]. done. Qed.

Lemma budget_handle ev w : budget (handle ev w) = budget w.
Proof.
  destruct ev; simpl; try (apply budget_shape; by (same_shape)).
  unfold on_user_typing. case_match; [|done].
  unfold budget, retries_left; simpl. by rewrite retries_pending_insert, Nat.add_0_r.
Qed.

Lemma budget_on_connect_error ls w :
  (budget (on_connect_error ls w) ≤ budget w)%nat
  ∧ pathIndex (on_connect_error ls w) = S (pathIndex w).
Proof.
  unfold on_connect_error.
  assert (Hlen : length SOCKET_PATHS = 5) by reflexivity.
  destruct ls; cbv zeta.
  1,2: match goal with
       | |- context [close ?c ?w1] =>
           pose proof (shape_close c w1) as Hc; set (w2 := close c w1) in *
       end;
       assert (Hc' : shape w2 = (length (socks w), timers w, S (pathIndex w)))
         by (rewrite Hc; reflexivity);
       clearbody w2; clear Hc; injection Hc' as Hc1 Hc2 Hc3; rewrite Hc3;
       destruct (Nat.ltb_spec (S (pathIndex w)) (length SOCKET_PATHS)) as [Hlt|Hge];
       unfold budget, retries_left; cbn [socks timers pathIndex setTimeout set_timers
         log update]; rewrite ?retries_pending_insert, ?Hc1, ?Hc2, ?Hc3, Hlen in *;
       cbn [is_retry_timer]; split; lia.
  cbn [pathIndex set_pathIndex log].
  destruct (Nat.leb_spec (length SOCKET_PATHS) (S (pathIndex w)));
    unfold budget, retries_left; cbn [socks timers pathIndex log update set_pathIndex];
    rewrite Hlen; split; lia.
Qed.

Lemma fire_socks t w :
  (length (socks (fire t w)) ≤ length (socks w) + (if is_retry_timer t then 1 else 0))%nat
  ∧ timers (fire t w) = timers w ∧ pathIndex (fire t w) = pathIndex w.
Proof.
  destruct t; simpl; unfold attemptConnection, retry_timeout, tryConnection,
    typing_timeout; simpl; repeat case_match; simpl; rewrite ?length_app; simpl;
    split_and!; try done; lia.
Qed.

Lemma foldl_fire_socks (l : list (N * Timer)) w :
  (length (socks (foldl (λ w p, fire p.2 w) w l)) ≤ length (socks w) + retries_pending l)%nat
  ∧ timers (foldl (λ w p, fire p.2 w) w l) = timers w
  ∧ pathIndex (foldl (λ w p, fire p.2 w) w l) = pathIndex w.
Proof.
  revert w. induction l as [|p l IH]; intros w; simpl; [split_and!; try done; lia|].
  destruct (IH (fire p.2 w)) as (H1 & -> & ->).
  destruct (fire_socks p.2 w) as (H2 & -> & ->).
  split_and!; try done. unfold retries_pending in *. simpl.
  destruct (is_retry_timer p.2); simpl; lia.
Qed.

Lemma budget_pass_time dt w :
  (budget (pass_time dt w) ≤ budget w)%nat ∧ pathIndex (pass_time dt w) = pathIndex w.
Proof.
  unfold pass_time.
  match goal with |- context [foldl _ ?w0 ?l] =>
    destruct (foldl_fire_socks l w0) as (H1 & H2 & H3) end.
  split; [|by rewrite H3].
  unfold budget, retries_left. rewrite H2, H3. simpl in *.
  pose proof (retries_pending_split (λ p, (p.1 ≤ now w + dt)%N) (timers w)). lia.
Qed.

Lemma budget_step a e w :
  (budget (step a e w) ≤ budget w)%nat ∧ (pathIndex w ≤ pathIndex (step a e w))%nat.
Proof.
  assert (Hsame : ∀ w', shape w' = shape w →
            (budget w' ≤ budget w)%nat ∧ (pathIndex w ≤ pathIndex w')%nat).
  { intros w' Hw'. rewrite (budget_shape _ _ Hw'). injection Hw' as _ _ ->. done. }
  destruct e; cbn [step].
  1-8: by (apply Hsame; same_shape).
  - apply Hsame. case_match; [|done]. by (same_shape).
  - apply Hsame. case_match; [|done]. by (same_shape).
  - apply Hsame. repeat case_match; try done. rewrite shape_on_connect.
    unfold shape; simpl. by rewrite length_alter.
  - repeat case_match; try by apply Hsame.
    match goal with |- context [on_connect_error ?ls ?w0] =>
      destruct (budget_on_connect_error ls w0) as [H1 H2];
      assert (Hb : budget w0 = budget w)
        by (unfold budget, retries_left; simpl; by rewrite length_alter);
      rewrite H2; rewrite Hb in H1 end.
    simpl. split; [done|lia].
  - apply Hsame. repeat case_match; try done. rewrite shape_on_disconnect.
    unfold shape; simpl. by rewrite length_alter.
  - repeat case_match; try by apply Hsame.
    apply (iter_preserves (λ w', (budget w' ≤ budget w)%nat ∧ (pathIndex w ≤ pathIndex w')%nat));
      [|done].
    intros y [Hy1 Hy2]. rewrite budget_handle. split; [done|].
    etrans; [exact Hy2|]. apply Nat.eq_le_incl. destruct ev; simpl; same_field.
  - destruct (budget_pass_time dt w) as [H1 H2]. split; [done|]. by rewrite H2.
Qed.

Lemma budget_run a evs w :
  (budget (run a evs w) ≤ budget w)%nat ∧ (pathIndex w ≤ pathIndex (run a evs w))%nat.
Proof.
  revert w. induction evs as [|e evs IH]; intros w; simpl; [done|].
  destruct (IH (step a e w)) as [H1 H2], (budget_step a e w) as [H3 H4].
  split; lia.
Qed.

Lemma budget_boot a s0 : (budget (boot a s0) ≤ 6)%nat.
Proof.
  unfold boot, connection_effect, fetchChatRooms, attemptConnection, tryConnection.
  simpl. repeat (case_match; simpl); vm_compute; lia.
Qed.

(** X7. Whatever the order of events and however often sockets fail, drop
    or reconnect, one run of the connection effect opens at most six
    sockets: the two it starts with and at most four retries; sockets
    opened and retries still scheduled never add up to more than six, and
    [pathIndex] never goes back. *)
Theorem at_most_six_sockets (a : Auth) (s0 : ChatState) (evs : list Event) :
  let w := run a evs (boot a s0) in
  (length (socks w) + retries_pending (timers w) ≤ 6)%nat
  ∧ (∀ e, (pathIndex w ≤ pathIndex (step a e w))%nat).
Proof.
  intros w. split.
  - pose proof (budget_run a evs (boot a s0)) as [H _].
    pose proof (budget_boot a s0). unfold budget in *. fold w in H. lia.
  - intros e. apply budget_step.
Qed.

(** ** Without credentials *)

(** X8. No anonymous chat: while [useAuth] supplies no user, or a missing
    or empty token, the provider opens no socket, issues no request, sets
    no timer and emits nothing, and its React state stays the initial
    one, whatever is called on it and however much time passes. *)
Theorem no_credentials_no_session (a : Auth) (evs : list Event) :
  user a = None ∨ truthy (token a) = false →
  let w := run a evs (mount a) in
  react w = initialState
  ∧ socks w = []
  ∧ timers w = []
  ∧ pending w = []
  ∧ emitted w = [].
Proof.
  intros Hno.
  assert (Hfetch : ∀ w, fetchChatRooms a w = log LogCannotFetchRooms w).
  { intros w. unfold fetchChatRooms. destruct Hno as [->| ->]; [done|].
    by destruct (user a). }
  assert (Hmount : mount a = log LogCannotFetchRooms
                               (mkWorld initialState 0 None None None "" [] 0 [] [] [] [])).
  { unfold mount, boot. rewrite Hfetch. unfold connection_effect.
    destruct Hno as [->| ->]; [done|]. by destruct (user a). }
  cbv zeta. rewrite Hmount.
  generalize (log LogCannotFetchRooms
                (mkWorld initialState 0 None None None "" [] 0 [] [] [] [])),
    (eq_refl : react (log LogCannotFetchRooms
                (mkWorld initialState 0 None None None "" [] 0 [] [] [] [])) = initialState),
    (eq_refl : socks (log LogCannotFetchRooms
                (mkWorld initialState 0 None None None "" [] 0 [] [] [] [])) = []),
    (eq_refl : timers (log LogCannotFetchRooms
                (mkWorld initialState 0 None None None "" [] 0 [] [] [] [])) = []),
    (eq_refl : pending (log LogCannotFetchRooms
                (mkWorld initialState 0 None None None "" [] 0 [] [] [] [])) = []),
    (eq_refl : emitted (log LogCannotFetchRooms
                (mkWorld initialState 0 None None None "" [] 0 [] [] [] [])) = []).
  induction evs as [|e evs IH]; intros w H1 H2 H3 H4 H5; simpl; [done|].
  apply IH; destruct e; cbn [step]; rewrite ?Hfetch;
    unfold joinRoom, leaveRoom, sendMessage, startTyping, stopTyping, markAsRead,
      clearMessages, pass_time;
    rewrite ?H1, ?H2, ?H3, ?H4; simpl; rewrite ?H1; done.
Qed.

Lemma no_credentials_no_session_witness :
  react (run (mkAuth None None)
           [call_fetchChatRooms; call_joinRoom "r1"; call_sendMessage "r1" "hi" "bob";
            connect 0; elapse 5000]
           (mount (mkAuth None None))) = initialState.
Proof.
  apply (no_credentials_no_session (mkAuth None None)
           [call_fetchChatRooms; call_joinRoom "r1"; call_sendMessage "r1" "hi" "bob";
            connect 0; elapse 5000]).
  by left.
Defined.

(** ** Before and after the first [connect] *)

Ltac grows_console :=
  intros; unfold on_user_typing, on_user_stopped_typing, typing_timeout;
  open_world; unfold setTimeout; simpl;
  repeat (case_match; simpl); repeat apply prefix_app_r; done.

Lemma console_handle ev w : console w `prefix_of` console (handle ev w).
Proof. destruct ev; simpl; grows_console. Qed.

Lemma console_fire t w : console w `prefix_of` console (fire t w).
Proof. destruct t; simpl; grows_console. Qed.

(** The console is only ever appended to. *)
Lemma console_step a e w : console w `prefix_of` console (step a e w).
Proof.
  destruct e; cbn [step].
  1-8: by grows_console.
  - case_match; [|done]. by grows_console.
  - case_match; [|done]. by grows_console.
  - repeat case_match; try done; by grows_console.
  - repeat case_match; try done; by grows_console.
  - repeat case_match; try done; by grows_console.
  - repeat case_match; try done.
    apply (iter_preserves (λ w', console w `prefix_of` console w')); [|done].
    intros y Hy. etrans; [exact Hy|]. apply console_handle.
  - unfold pass_time.
    apply (foldl_fire_preserves (λ w', console w `prefix_of` console w')); [|done].
    intros t y Hy. etrans; [exact Hy|]. apply console_fire.
Qed.

Lemma untouched_alter_phase (f : Sock → Sock) i l :
  (∀ s, s_reconnection (f s) = s_reconnection s ∧ s_chat (f s) = s_chat s) →
  untouched l → untouched (alter f i l).
Proof.
  intros Hf Hl. unfold untouched in *. revert i.
  induction Hl as [|s l Hs Hl IH]; intros [|i]; simpl; [done|done| |].
  - constructor; [|done]. destruct (Hf s) as [-> ->]. done.
  - constructor; [done|]. apply IH.
Qed.

Lemma untouched_snoc l p ls : untouched l → untouched (l ++ [mkSock p ls Opening false 0]).
Proof. intros Hl. apply Forall_app. split; [done|]. by repeat constructor. Qed.

Lemma never_connected_close c w : never_connected w → never_connected (close c w).
Proof.
  intros (H1 & H2 & H3 & H4). unfold close.
  destruct c as [i|]; [|done]. destruct (socks w !! i) as [s|]; [|done].
  assert (H : never_connected (set_socks (alter (set_phase Closed) i (socks w)) w)).
  { split_and!; try done. simpl. by apply untouched_alter_phase. }
  destruct (s_phase s); try done. destruct H as (?&?&?&?).
  destruct (s_listeners s); simpl; split_and!; done.
Qed.

Lemma never_connected_handle ev w : never_connected w → never_connected (handle ev w).
Proof.
  intros (H1 & H2 & H3 & H4).
  destruct ev; simpl; unfold on_user_typing, on_user_stopped_typing; open_world;
    repeat (case_match; simpl); split_and!; done.
Qed.

Lemma never_connected_fire t w : never_connected w → never_connected (fire t w).
Proof.
  intros (H1 & H2 & H3 & H4).
  destruct t; simpl; unfold attemptConnection, retry_timeout, tryConnection,
    typing_timeout; repeat (case_match; simpl); split_and!; try done;
    simpl; by apply untouched_snoc.
Qed.

Lemma never_connected_step a e w :
  never_connected w →
  never_connected (step a e w) ∨ ∃ p, LogConnected p ∈ console (step a e w).
Proof.
  intros Hw. pose proof Hw as (H1 & H2 & H3 & H4).
  destruct e; cbn [step].
  1-6: left; unfold joinRoom, leaveRoom, sendMessage, startTyping, stopTyping,
         markAsRead; by rewrite H2.
  - left. split_and!; done.
  - left. unfold fetchChatRooms. repeat case_match; split_and!; done.
  - left. case_match; [|done]. unfold joinRoom_resume.
    repeat case_match; split_and!; done.
  - left. case_match; [|done]. unfold fetchChatRooms_resume.
    repeat case_match; split_and!; done.
  - destruct (socks w !! i) as [s|]; [|by left].
    destruct (can_connect s); [|by left]. right.
    exists (SOCKET_PATHS !! pathIndex w). unfold on_connect.
    destruct (s_listeners s); unfold enable_reconnection, setupEventHandlers;
      simpl; repeat (case_match; simpl); apply elem_of_app; right; by left.
  - left. destruct (socks w !! i) as [s|]; [|done].
    destruct (can_connect s); [|done]. unfold on_connect_error.
    match goal with |- context [set_socks ?l w] =>
      assert (Hw0 : never_connected (set_socks l w)) end.
    { split_and!; try done. simpl. apply untouched_alter_phase; [|done].
      intros s'. destruct (s_reconnection s') eqn:E; simpl; rewrite ?E; done. }
    revert Hw0. generalize (set_socks (alter (λ s0, if s_reconnection s0 then s0
                                                   else set_phase Failed s0) i (socks w)) w).
    intros w0 Hw0. cbv zeta.
    match goal with |- context [close ?c ?w1] =>
      assert (Hc : never_connected (close c w1))
        by (apply never_connected_close; destruct Hw0 as (?&?&?&?); split_and!; done);
      assert (Hw1 : never_connected w1)
        by (destruct Hw0 as (?&?&?&?); split_and!; done)
    end.
    destruct Hc as (?&?&?&?), Hw1 as (?&?&?&?).
    destruct (s_listeners s); repeat (case_match; simpl); split_and!; done.
  - left. destruct (socks w !! i) as [s|]; [|done]. destruct (is_live s); [|done].
    assert (Hw0 : never_connected (set_socks (alter (set_phase Down) i (socks w)) w)).
    { split_and!; try done. simpl. by apply untouched_alter_phase. }
    destruct Hw0 as (?&?&?&?).
    destruct (s_listeners s); simpl; split_and!; done.
  - left. destruct (socks w !! i) as [s|]; [|done]. destruct (is_live s); [|done].
    apply (iter_preserves never_connected); [|done]. apply never_connected_handle.
  - left. unfold pass_time.
    apply (foldl_fire_preserves never_connected); [apply never_connected_fire|].
    split_and!; done.
Qed.

Lemma never_connected_mount a : never_connected (mount a).
Proof.
  unfold mount, boot, connection_effect, fetchChatRooms, attemptConnection,
    tryConnection. simpl.
  repeat (case_match; simpl); split_and!; try done; simpl; by repeat constructor.
Qed.

(** X9. Until some socket has reported [connect], the provider shows
    [isConnected] false, holds no socket, has emitted nothing, and no
    socket has reconnection switched on or chat handlers registered:
    reconnection and the handlers come only with a successful connection. *)
Theorem nothing_before_first_connect (a : Auth) (evs : list Event) :
  let w := run a evs (mount a) in
  (∃ path, LogConnected path ∈ console w)
  ∨ (isConnected (react w) = false
     ∧ socket (react w) = None
     ∧ emitted w = []
     ∧ Forall (λ s, s_reconnection s = false ∧ s_chat s = 0) (socks w)).
Proof.
  cbv zeta. generalize (never_connected_mount a).
  assert (H : ∀ w, never_connected w ∨ (∃ p, LogConnected p ∈ console w) →
                never_connected (run a evs w) ∨ ∃ p, LogConnected p ∈ console (run a evs w)).
  { induction evs as [|e evs IH]; intros w Hw; simpl; [done|].
    apply IH. destruct Hw as [Hw|[p Hp]].
    - by apply never_connected_step.
    - right. exists p. by eapply elem_of_prefix, console_step. }
  intros Hm. destruct (H (mount a) (or_introl Hm)) as [Hn|Hc]; [by right|by left].
Qed.

(** ** Which socket is which *)

Lemma same_wiring_refl w : same_wiring w w.
Proof. by split_and!. Qed.

Lemma same_wiring_trans w1 w2 w3 :
  same_wiring w1 w2 → same_wiring w2 w3 → same_wiring w1 w3.
Proof.
  intros (A1&A2&A3&A4&A5) (B1&B2&B3&B4&B5). split_and!; try congruence. auto.
Qed.

Lemma wiring_same w w' : same_wiring w w' → wiring w → wiring w'.
Proof.
  intros (A1&A2&A3&A4&A5) (B1&B2&B3). unfold wiring, newest.
  rewrite A1, A2, A3, A4. split_and!; try done. intros i Hi. auto.
Qed.

Lemma wired_alter (f : Sock → Sock) (j i : nat) (l : list Sock) :
  (∀ s, (s_chat s ≤ s_chat (f s))%nat) → wired l i → wired (alter f j l) i.
Proof.
  intros Hf (s & Hs & Hc). destruct (decide (j = i)) as [->|Hne].
  - exists (f s). rewrite list_lookup_alter_eq, Hs. split; [done|].
    specialize (Hf s). lia.
  - exists s. by rewrite list_lookup_alter_ne.
Qed.

Lemma wired_snoc (l : list Sock) (s' : Sock) (i : nat) : wired l i → wired (l ++ [s']) i.
Proof.
  intros (s & Hs & Hc). exists s. split; [|done].
  rewrite lookup_app_l; [done|]. by eapply lookup_lt_Some.
Qed.

Lemma same_wiring_alter (f : Sock → Sock) (j : nat) (w : World) :
  (∀ s, (s_chat s ≤ s_chat (f s))%nat) →
  same_wiring w (set_socks (alter f j (socks w)) w).
Proof.
  intros Hf. split_and!; try done; simpl; [by rewrite length_alter|].
  intros i. by apply wired_alter.
Qed.

Lemma same_wiring_quiet w w' :
  currentSocket w' = currentSocket w → finalSocket w' = finalSocket w →
  socket (react w') = socket (react w) → socks w' = socks w → same_wiring w w'.
Proof. intros H1 H2 H3 H4. split_and!; try done; by rewrite H4. Qed.

Ltac quiet_wiring := apply same_wiring_quiet; same_field; done.

Lemma same_wiring_on_disconnect ls w : same_wiring w (on_disconnect ls w).
Proof. quiet_wiring. Qed.

Lemma same_wiring_close c w : same_wiring w (close c w).
Proof.
  unfold close. destruct c as [i|]; [|apply same_wiring_refl].
  destruct (socks w !! i) as [s|]; [|apply same_wiring_refl].
  assert (H : same_wiring w (set_socks (alter (set_phase Closed) i (socks w)) w))
    by (by apply same_wiring_alter).
  destruct (s_phase s); try done.
  eapply same_wiring_trans; [exact H|apply same_wiring_on_disconnect].
Qed.

Lemma same_wiring_on_connect_error ls w : same_wiring w (on_connect_error ls w).
Proof.
  unfold on_connect_error. cbv zeta.
  match goal with |- context [close ?c ?w1] =>
    assert (H1 : same_wiring w w1) by (by apply same_wiring_quiet);
    pose proof (same_wiring_close c w1) as H2;
    pose proof (same_wiring_trans _ _ _ H1 H2) as H3;
    revert H3; generalize (close c w1); clear H2; revert H1; generalize w1
  end.
  intros w1 H1 w2 H2.
  destruct ls; repeat case_match;
    [eapply same_wiring_trans; [exact H2|] ..
    |eapply same_wiring_trans; [exact H1|]
    |eapply same_wiring_trans; [exact H1|]];
    try apply same_wiring_refl; by apply same_wiring_quiet.
Qed.

Lemma same_wiring_handle ev w : same_wiring w (handle ev w).
Proof. destruct ev; simpl; quiet_wiring. Qed.

Lemma wiring_enable_reconnection c w : same_wiring w (enable_reconnection c w).
Proof.
  destruct c as [i|]; [|apply same_wiring_refl]. simpl.
  by apply same_wiring_alter.
Qed.

Lemma wiring_setupEventHandlers w :
  wiring w → wiring (setupEventHandlers (currentSocket w) w).
Proof.
  intros (H1 & H2 & H3). rewrite H1. unfold newest.
  destruct (length (socks w)) as [|n] eqn:Hlen; [by split_and!|].
  unfold setupEventHandlers, wiring, newest; simpl. rewrite length_alter, Hlen.
  split_and!; try done.
  { rewrite H1. unfold newest. by rewrite Hlen. }
  intros i [= <-].
  destruct (lookup_lt_is_Some_2 (socks w) n) as [s Hs]; [lia|].
  eexists. rewrite list_lookup_alter_eq, Hs. simpl. split; [done|]. simpl. lia.
Qed.

Lemma wiring_on_connect ls w : wiring w → wiring (on_connect ls w).
Proof.
  intros Hw. unfold on_connect. cbv zeta.
  set (w1 := update (setIsConnected true)
               (log (LogConnected (SOCKET_PATHS !! pathIndex w)) w)).
  assert (Hw1 : wiring w1).
  { eapply wiring_same; [|exact Hw]. apply same_wiring_quiet; reflexivity. }
  clearbody w1. destruct ls.
  - eapply wiring_same; [apply wiring_enable_reconnection|done].
  - pose proof (wiring_same _ _ (wiring_enable_reconnection (currentSocket w1) w1) Hw1)
      as H2.
    assert (Hcs : currentSocket (enable_reconnection (currentSocket w1) w1)
                  = currentSocket w1)
      by (destruct (currentSocket w1) eqn:E; simpl; done).
    rewrite <- Hcs at 1. by apply wiring_setupEventHandlers.
  - by apply wiring_setupEventHandlers.
Qed.

Lemma wiring_tryConnection idx ls w :
  wiring w →
  wiring (set_currentSocket (Some (tryConnection idx ls w).1) (tryConnection idx ls w).2).
Proof.
  intros (H1 & H2 & H3). unfold tryConnection, wiring, newest; simpl.
  rewrite length_app. simpl. rewrite Nat.add_1_r. split_and!; try done.
  intros i Hi. apply wired_snoc. auto.
Qed.

Lemma wiring_fire t w : wiring w → wiring (fire t w).
Proof.
  intros Hw. destruct t; simpl.
  - unfold attemptConnection. case_match.
    + eapply wiring_same; [|done]. by apply same_wiring_quiet.
    + by apply (wiring_tryConnection (pathIndex w) AttemptL).
  - by apply (wiring_tryConnection (pathIndex w) RetryL).
  - eapply wiring_same; [|done]. by apply same_wiring_quiet.
Qed.

Lemma wiring_step a e w : wiring w → wiring (step a e w).
Proof.
  intros Hw. destruct e; cbn [step].
  1-8: by (eapply wiring_same; [|done]; quiet_wiring).
  - case_match; [|done]. eapply wiring_same; [|done]. quiet_wiring.
  - case_match; [|done]. eapply wiring_same; [|done]. quiet_wiring.
  - destruct (socks w !! i) as [s|]; [|done]. destruct (can_connect s); [|done].
    apply wiring_on_connect. eapply wiring_same; [|done]. by apply same_wiring_alter.
  - destruct (socks w !! i) as [s|]; [|done]. destruct (can_connect s); [|done].
    eapply wiring_same; [|done].
    eapply same_wiring_trans; [|apply same_wiring_on_connect_error].
    apply same_wiring_alter. intros s'. by destruct (s_reconnection s').
  - destruct (socks w !! i) as [s|]; [|done]. destruct (is_live s); [|done].
    eapply wiring_same; [|done].
    eapply same_wiring_trans; [|apply same_wiring_on_disconnect].
    by apply same_wiring_alter.
  - destruct (socks w !! i) as [s|]; [|done]. destruct (is_live s); [|done].
    apply (iter_preserves wiring); [|done].
    intros y Hy. eapply wiring_same; [apply same_wiring_handle|done].
  - unfold pass_time. apply (foldl_fire_preserves wiring); [apply wiring_fire|].
    eapply wiring_same; [|done]. by apply same_wiring_quiet.
Qed.

Lemma wiring_mount a : wiring (mount a).
Proof.
  unfold mount, boot, connection_effect, fetchChatRooms, attemptConnection,
    tryConnection. simpl.
  repeat (case_match; simpl); split_and!; done.
Qed.

(** X10. Through a whole session from the first mount, [currentSocket]
    is the socket opened last, the [socket] of the React state is the
    effect's [finalSocket], and whenever that one is set it names an
    existing socket on which the chat handlers are registered. *)
Theorem socket_state_is_wired (a : Auth) (evs : list Event) :
  let w := run a evs (mount a) in
  currentSocket w = newest (socks w)
  ∧ socket (react w) = finalSocket w
  ∧ (∀ i, socket (react w) = Some i →
       ∃ s, socks w !! i = Some s ∧ (0 < s_chat s)%nat).
Proof.
  cbv zeta. generalize (wiring_mount a). generalize (mount a).
  induction evs as [|e evs IH]; intros w Hw; simpl.
  - destruct Hw as (H1 & H2 & H3). split_and!; try done. intros i Hi. apply H3.
    by rewrite <- H2.
  - apply IH. by apply wiring_step.
Qed.

Lemma socks_length_close c w : length (socks (close c w)) = length (socks w).
Proof. same_field; rewrite ?length_alter; done. Qed.

(** X11. Every [connect_error] moves [pathIndex] on by one. The
    listeners of [attemptConnection] and of the effect body set one retry
    timer, 1000 ms ahead, as long as the new index is inside the path
    table; the listener of the retry closure never sets one, so a failure
    of a socket it opened ends that chain. Once the index has left the
    table no timer is set and [isConnected] is false. No listener opens a
    socket itself. *)
Theorem connect_error_retry_policy (ls : Listeners) (w : World) :
  let w' := on_connect_error ls w in
  pathIndex w' = S (pathIndex w)
  ∧ length (socks w') = length (socks w)
  ∧ ((S (pathIndex w) < length SOCKET_PATHS)%nat →
       timers w'
       = match ls with
         | AttemptL => insert_timer (now w + 1000)%N TimerAttempt (timers w)
         | InlineL => insert_timer (now w + 1000)%N TimerRetry (timers w)
         | RetryL => timers w
         end)
  ∧ ((length SOCKET_PATHS ≤ S (pathIndex w))%nat →
       timers w' = timers w ∧ isConnected (react w') = false).
Proof.
  cbv zeta. unfold on_connect_error. cbv zeta.
  destruct ls.
  1,2: match goal with |- context [close ?c ?w1] =>
         pose proof (timers_close c w1) as Ht; pose proof (now_close c w1) as Hn;
         pose proof (socks_length_close c w1) as Hs;
         assert (Hp : pathIndex (close c w1) = S (pathIndex w))
           by (transitivity (pathIndex w1); [same_field|reflexivity]);
         cbn [timers now socks set_pathIndex log] in Ht, Hn, Hs;
         revert Ht Hn Hs Hp; generalize (close c w1)
       end;
       intros w2 Ht Hn Hs Hp; rewrite Hp;
       destruct (Nat.ltb_spec (S (pathIndex w)) (length SOCKET_PATHS));
       cbn [pathIndex socks timers react setTimeout set_timers log update now
            isConnected setIsConnected];
       rewrite ?Hp, ?Hs, ?Ht, ?Hn; split_and!; try done; intros; lia.
  cbn [pathIndex set_pathIndex log].
  destruct (Nat.leb_spec (length SOCKET_PATHS) (S (pathIndex w)));
    cbn [pathIndex socks timers react log update set_pathIndex isConnected
         setIsConnected]; split_and!; try done; intros; lia.
Qed.

Lemma includes_empty (s : string) : includes s "" = true.
Proof. destruct s; reflexivity. Qed.

Lemma filter_sublist {A} (f : A → bool) (l : list A) : List.filter f l `sublist_of` l.
Proof.
  induction l as [|x l IH]; simpl; [done|].
  destruct (f x); [by apply sublist_skip|by apply sublist_cons].
Qed.

(** * ChatPage *)

Module ChatPageFacts.
Import ChatPage.

Lemma nonempty_true (s : string) : nonempty s = true ↔ s ≠ "".
Proof.
  unfold nonempty. destruct (String.eqb_spec s ""); simpl; split; intros; done.
Qed.

Lemma find_some_elem {A} (f : A → bool) (l : list A) (x : A) :
  List.find f l = Some x → x ∈ l ∧ f x = true.
Proof.
  intros H. apply List.find_some in H as [H1 H2]. split; [|done].
  by apply list_elem_of_In.
Qed.

(** X12. [getOtherParticipant] answers the empty string when nobody is
    logged in, when no room has the given id, or when the first such room
    has no participant other than the user; otherwise it answers a
    participant of the first room with that id, and that participant is
    not the user. *)
Theorem getOtherParticipant_is_someone_else (a : Auth) (w : World) (roomId : string) :
  let other := getOtherParticipant a w roomId in
  (user a = None → other = "")
  ∧ ((∀ room, room ∈ chatRooms (react w) → ChatRoom.id room ≠ roomId) → other = "")
  ∧ (other ≠ "" →
       ∃ room u,
         room ∈ chatRooms (react w) ∧ ChatRoom.id room = roomId ∧ user a = Some u
         ∧ other ∈ ChatRoom.participants room ∧ other ≠ User.username u).
Proof.
  cbv zeta. unfold getOtherParticipant.
  destruct (List.find _ (chatRooms (react w))) as [room|] eqn:Hroom.
  - apply find_some_elem in Hroom as [Hin Hid]. apply bool_decide_eq_true in Hid.
    destruct (user a) as [u|]; [|by split_and!].
    destruct (List.find _ (ChatRoom.participants room)) as [p|] eqn:Hp.
    + apply find_some_elem in Hp as [Hpin Hpne]. apply bool_decide_eq_true in Hpne.
      split; [done|]. split.
      * intros Hnone. by destruct (Hnone room Hin).
      * intros _. by exists room, u.
    + split; [done|]. split; [|done]. intros Hnone. by destruct (Hnone room Hin).
  - split; [by destruct (user a)|]. split; [by destruct (user a)|].
    by destruct (user a).
Qed.

(** X13. [handleSendMessage] does nothing at all when the draft is blank,
    no room is selected, the provider is not connected or the room has no
    other participant. Otherwise it clears the draft and its pending
    stop-typing timer and calls the provider, which leaves the React
    state alone and emits, on its socket, a stop-typing signal if the ref
    held a timer and then one [send_message] for the selected room, with
    the trimmed non-empty draft and a non-empty receiver. *)
Theorem handleSendMessage_sends_trimmed_draft (a : Auth) (p : Page) (w : World) :
  let p' := (handleSendMessage a (p, w)).1 in
  let w' := (handleSendMessage a (p, w)).2 in
  let text := trim (newMessage p) in
  react w' = react w
  ∧ ((text = "" ∨ room_set (selectedRoom p) = None ∨ isConnected (react w) = false
      ∨ (∀ room, selectedRoom p = Some room → getOtherParticipant a w room = "")) →
       p' = p ∧ w' = w)
  ∧ (∀ room s,
       text ≠ "" → room_set (selectedRoom p) = Some room →
       isConnected (react w) = true → getOtherParticipant a w room ≠ "" →
       socket (react w) = Some s →
       newMessage p' = ""
       ∧ emitted w'
         = emitted w
           ++ match ref_set (typingTimeoutRef p) with
              | Some _ => [(s, stop_typing room)]
              | None => []
              end
           ++ [(s, send_message room text (getOtherParticipant a w room))]).
Proof.
  cbv zeta. unfold handleSendMessage.
  assert (Hroom : ∀ room, room_set (selectedRoom p) = Some room →
                    selectedRoom p = Some room).
  { intros room. unfold room_set. destruct (selectedRoom p) as [r|]; [|done].
    destruct (nonempty r); [|done]. by intros [= ->]. }
  destruct (room_set (selectedRoom p)) as [room|] eqn:Hrs; simpl; [|split_and!; done].
  specialize (Hroom room eq_refl).
  destruct (nonempty (trim (newMessage p))) eqn:Htext; simpl.
  2: { split_and!; try done. intros room' s Hne. apply nonempty_true in Hne. congruence. }
  apply nonempty_true in Htext.
  destruct (isConnected (react w)) eqn:Hconn; simpl; [|split_and!; done].
  destruct (nonempty (getOtherParticipant a w room)) eqn:Hrcv; simpl.
  2: { split_and!; try done. intros room' s _ [= <-] _ Hne.
       apply nonempty_true in Hne. congruence. }
  apply nonempty_true in Hrcv.
  destruct (ref_set (typingTimeoutRef p)) as [id|] eqn:Href; simpl;
    unfold sendMessage, stopTyping; simpl; rewrite Hconn;
    destruct (socket (react w)) as [s0|] eqn:Hs; simpl; rewrite ?Hconn, ?Hs; simpl;
    (split_and!; [done| |]).
  all: try (intros [?|[?|[?|Hnone]]]; try done; by destruct Hrcv; apply Hnone).
  all: try (intros room' s _ [= <-] _ _ [= <-]; split; [done|];
            by rewrite <- ?app_assoc).
  all: by intros room' s _ _ _ _ ?.
Qed.

(** X14. When [isConnected] is true while the provider holds no socket
    (a socket other than the one with the chat handlers connected),
    [handleSendMessage] passes its own checks, clears the draft and the
    provider sends nothing: the text is dropped. *)
Theorem handleSendMessage_drops_draft_without_socket (a : Auth) (p : Page) (w : World)
    (room : string) :
  trim (newMessage p) ≠ "" →
  room_set (selectedRoom p) = Some room →
  isConnected (react w) = true →
  getOtherParticipant a w room ≠ "" →
  socket (react w) = None →
  newMessage (handleSendMessage a (p, w)).1 = ""
  ∧ (handleSendMessage a (p, w)).2 = w.
Proof.
  intros Htext Hroom Hconn Hrcv Hs. unfold handleSendMessage. rewrite Hroom.
  apply nonempty_true in Htext, Hrcv. rewrite Htext, Hconn, Hrcv. simpl.
  unfold sendMessage, stopTyping. rewrite Hs.
  destruct (ref_set (typingTimeoutRef p)); simpl; by rewrite ?Hs.
Qed.

(** X15. The join effect calls [joinRoom] only for a selected room that
    is not the current one, and running it again right away changes
    nothing: connected, the first run made the selected room current;
    disconnected, neither run does anything. So the page never re-joins
    the room it is in. *)
Theorem join_effect_joins_once (p : Page) (w : World) :
  join_effect (join_effect (p, w)) = join_effect (p, w)
  ∧ (join_effect (p, w)).1 = p
  ∧ (∀ room, room_set (selectedRoom p) = Some room → currentRoom (react w) = Some room →
       join_effect (p, w) = (p, w))
  ∧ (∀ room s, room_set (selectedRoom p) = Some room → socket (react w) = Some s →
       isConnected (react w) = true →
       currentRoom (react (join_effect (p, w)).2) = Some room).
Proof.
  unfold join_effect.
  destruct (room_set (selectedRoom p)) as [room|] eqn:Hroom; simpl.
  2: { rewrite Hroom. split_and!; done. }
  case_bool_decide as Hcur; simpl; rewrite Hroom.
  - unfold joinRoom.
    destruct (socket (react w)) as [s|] eqn:Hs, (isConnected (react w)) eqn:Hc; simpl.
    1: rewrite bool_decide_eq_false_2 by (intros H; by apply H).
    2-4: rewrite bool_decide_eq_true_2 by done; rewrite Hs, ?Hc.
    all: split_and!; try done.
    all: try (intros room' [= <-] Hcur'; by destruct Hcur).
  - rewrite bool_decide_eq_false_2 by (intros H; by apply H). split_and!; try done.
    by intros room' s [= <-] _ _.
Qed.

(** *** The stop-typing timer *)

Lemma one_timer_clear (p : Page) (id : nat) :
  one_timer p → ref_set (typingTimeoutRef p) = Some id →
  page_timers (clearTimeout id p) = [] ∧ next_timer (clearTimeout id p) = next_timer p.
Proof.
  intros [Hn [Hnil|(t & Ht & Href & Hid)]] Hset; simpl.
  - by rewrite Hnil.
  - rewrite Ht. rewrite Href in Hset. simpl.
    destruct (pt_id t) as [|n]; [done|]. injection Hset as <-.
    by rewrite Nat.eqb_refl.
Qed.

Lemma one_timer_unset (p : Page) :
  one_timer p → ref_set (typingTimeoutRef p) = None → page_timers p = [].
Proof.
  intros [Hn [Hnil|(t & Ht & Href & Hid)]] Hset; [done|].
  rewrite Href in Hset. simpl in Hset. destruct (pt_id t); [lia|done].
Qed.

Lemma one_timer_handleInputChange v p w :
  one_timer p → one_timer (handleInputChange v (p, w)).1.
Proof.
  intros Hp. unfold handleInputChange. cbv zeta.
  assert (Hp' : one_timer (setNewMessage v p)) by done.
  revert Hp'. generalize (setNewMessage v p). clear p Hp. intros p Hp.
  destruct (room_set (selectedRoom p)); [|done].
  destruct (isConnected (react w)); [|done].
  set (p1 := match ref_set (typingTimeoutRef p) with
             | Some id => clearTimeout id p
             | None => p
             end).
  assert (H1 : page_timers p1 = [] ∧ next_timer p1 = next_timer p).
  { unfold p1. destruct (ref_set (typingTimeoutRef p)) as [id|] eqn:Href.
    - by apply one_timer_clear.
    - split; [by apply one_timer_unset|done]. }
  destruct H1 as [H1 H2], Hp as [Hn _]. clearbody p1.
  unfold one_timer. cbn [fst page_timers next_timer typingTimeoutRef].
  rewrite H1, H2. split; [lia|]. right. eexists. split; [reflexivity|].
  cbn [pt_id]. split; [done|lia].
Qed.

Lemma one_timer_typing_cleanup p : one_timer p → one_timer (typing_cleanup p).
Proof.
  intros Hp. unfold typing_cleanup.
  destruct (ref_set (typingTimeoutRef p)) as [id|] eqn:Href; [|done].
  destruct (one_timer_clear p id Hp Href) as [H1 H2]. destruct Hp as [Hn _].
  split; [by rewrite H2|]. by left.
Qed.

Lemma one_timer_act a x p w : one_timer p → one_timer (act a x (p, w)).1.
Proof.
  intros Hp. destruct x; cbn [act].
  - by apply one_timer_handleInputChange.
  - unfold handleSendMessage.
    destruct (room_set (selectedRoom p)); [|done].
    destruct (_ && _); [|done]. destruct (nonempty _); [|done].
    destruct (ref_set (typingTimeoutRef p)) as [id|] eqn:Href; simpl; [|done].
    destruct (one_timer_clear p id Hp Href) as [H1 H2]. destruct Hp as [Hn _].
    split; [by simpl; rewrite <- H2|]. left. simpl. exact H1.
  - unfold select_room, handleRoomSelect. cbv zeta. cbn [fst].
    assert (Hp' : one_timer (setSelectedRoom (Some roomId) p)) by done.
    case_bool_decide; [|done].
    apply one_timer_typing_cleanup in Hp'. revert Hp'.
    generalize (typing_cleanup (setSelectedRoom (Some roomId) p)). intros p' Hp'.
    unfold join_effect. by repeat case_match.
  - unfold join_effect. by repeat case_match.
  - assert (Hpass : ∀ dt, one_timer (page_pass_time dt (p, w)).1).
    { intros dt. unfold page_pass_time. cbv zeta.
      destruct Hp as [Hn [Hnil|(t & Ht & Href & Hid)]].
      - rewrite Hnil. simpl. split; [done|by left].
      - rewrite Ht. simpl. destruct (pt_due t <=? now w + dt)%N; simpl.
        + split; [done|by left].
        + split; [done|]. right. by exists t. }
    destruct e; try done; apply Hpass.
Qed.

(** X16. Through any sequence of typing, sending, room picks, provider
    events and waiting, the page has at most one stop-typing timer
    pending, and when one is pending the ref holds its id: every
    keystroke replaces the timer instead of adding one. *)
Theorem one_stop_typing_timer (a : Auth) (xs : list Action) (w : World) :
  let p := (session a xs (initialPage, w)).1 in
  (length (page_timers p) ≤ 1)%nat
  ∧ (∀ t, t ∈ page_timers p → typingTimeoutRef p = Some (pt_id t)).
Proof.
  cbv zeta.
  assert (H : one_timer (session a xs (initialPage, w)).1).
  { assert (H0 : one_timer (initialPage, w).1) by (split; [simpl; lia|by left]).
    revert H0. generalize (initialPage, w).
    induction xs as [|x xs IH]; intros [p0 w0] H0; simpl; [done|].
    apply IH. by apply one_timer_act. }
  destruct H as [_ [Hnil|(t & Ht & Href & _)]].
  - rewrite Hnil. split; [simpl; lia|]. intros t Ht. by apply elem_of_nil in Ht.
  - rewrite Ht. split; [simpl; lia|]. intros t' Ht'.
    apply list_elem_of_singleton in Ht' as ->. done.
Qed.

Lemma emitted_pass_time dt w : emitted (pass_time dt w) = emitted w.
Proof.
  unfold pass_time.
  apply (foldl_fire_preserves (λ w', emitted w' = emitted w)); [|done].
  intros t y <-. apply emitted_fire.
Qed.

(** X17. A keystroke in a selected room while connected emits
    [start_typing] at once; if nothing else happens on the page, the
    matching [stop_typing] follows on the same socket once 2000 ms have
    passed, after which no timer is pending and the ref is empty. *)
Theorem keystroke_then_silence_stops_typing (a : Auth) (xs : list Action) (w0 : World)
    (v room : string) (s : SockId) (dt : N) :
  let p := (session a xs (initialPage, w0)).1 in
  let w := (session a xs (initialPage, w0)).2 in
  room_set (selectedRoom p) = Some room →
  socket (react w) = Some s →
  isConnected (react w) = true →
  (2000 ≤ dt)%N →
  let after := page_pass_time dt (handleInputChange v (p, w)) in
  emitted after.2 = emitted w ++ [(s, start_typing room); (s, stop_typing room)]
  ∧ newMessage after.1 = v
  ∧ page_timers after.1 = []
  ∧ typingTimeoutRef after.1 = None.
Proof.
  intros p w Hroom Hs Hc Hdt.
  assert (Hp : one_timer p).
  { unfold p. assert (H0 : one_timer (initialPage, w0).1) by (split; [simpl; lia|by left]).
    revert H0. generalize (initialPage, w0). clear.
    induction xs as [|x xs IH]; intros [p0 w1] H0; simpl; [done|].
    apply IH. by apply one_timer_act. }
  clearbody p w. cbv zeta. unfold handleInputChange. cbv zeta.
  change (selectedRoom (setNewMessage v p)) with (selectedRoom p).
  rewrite Hroom, Hc.
  set (p1 := match ref_set (typingTimeoutRef (setNewMessage v p)) with
             | Some id => clearTimeout id (setNewMessage v p)
             | None => setNewMessage v p
             end).
  assert (Hclear : page_timers p1 = []).
  { unfold p1. change (typingTimeoutRef (setNewMessage v p)) with (typingTimeoutRef p).
    destruct (ref_set (typingTimeoutRef p)) as [id|] eqn:Href.
    - apply (one_timer_clear p id Hp Href).
    - apply (one_timer_unset p Hp Href). }
  assert (Hnm : newMessage p1 = v).
  { unfold p1. by destruct (ref_set (typingTimeoutRef (setNewMessage v p))). }
  clearbody p1. destruct p1 as [nm sr sq rf tms nxt]. simpl in Hclear, Hnm. subst nm tms.
  assert (Hdue : (now w + 2000 <=? now w + dt)%N = true) by (apply N.leb_le; lia).
  unfold page_pass_time, startTyping. rewrite Hs, Hc.
  cbn [newMessage selectedRoom searchQuery typingTimeoutRef page_timers next_timer
       app List.filter pt_due now emit].
  rewrite Hdue.
  cbn [negb foldl typing_stopped pt_socket pt_connected pt_room fst snd].
  unfold emit at 1. cbn [emitted set_ref newMessage page_timers typingTimeoutRef].
  rewrite emitted_pass_time. cbn [emitted emit]. rewrite <- app_assoc.
  split_and!; done.
Qed.

Lemma handleSendMessage_drops_draft_without_socket_witness :
  newMessage (handleSendMessage alice
                (mkPage "hello " (Some "r1") "" None [] 1, connected_without_socket)).1
  = ""
  ∧ emitted (handleSendMessage alice
               (mkPage "hello " (Some "r1") "" None [] 1, connected_without_socket)).2
    = [].
Proof.
  destruct (handleSendMessage_drops_draft_without_socket alice
              (mkPage "hello " (Some "r1") "" None [] 1) connected_without_socket "r1")
    as [H1 H2]; [by vm_compute|reflexivity|reflexivity|by vm_compute|reflexivity|].
  split; [exact H1|]. by rewrite H2.
Defined.

Lemma keystroke_then_silence_stops_typing_witness :
  emitted (page_pass_time 2000
             (handleInputChange "h" (session alice [pick_room "r1"] (initialPage, online)))).2
  = emitted (session alice [pick_room "r1"] (initialPage, online)).2
    ++ [(1, start_typing "r1"); (1, stop_typing "r1")].
Proof.
  apply (keystroke_then_silence_stops_typing alice [pick_room "r1"] online "h" "r1" 1 2000);
    [reflexivity|reflexivity|reflexivity|lia].
Defined.

(** X26. The sidebar lists a sublist of the fetched rooms, in their
    order. With the search box empty (and lower-casing the empty string
    giving the empty string) it lists exactly the rooms that have at
    least one participant: a room without participants is never listed. *)
Theorem filteredRooms_needs_a_participant (toLowerCase : string → string) (p : Page)
    (w : World) :
  filteredRooms toLowerCase p w `sublist_of` chatRooms (react w)
  ∧ (∀ room, room ∈ filteredRooms toLowerCase p w → ChatRoom.participants room ≠ [])
  ∧ (toLowerCase "" = "" → searchQuery p = "" →
       filteredRooms toLowerCase p w
       = List.filter (λ room, negb (bool_decide (ChatRoom.participants room = [])))
           (chatRooms (react w))).
Proof.
  unfold filteredRooms. split_and!.
  - apply filter_sublist.
  - intros room Hroom. apply list_elem_of_In, List.filter_In in Hroom as [_ Hex].
    intros Hnil. by rewrite Hnil in Hex.
  - intros Hlow ->. rewrite Hlow. apply List.filter_ext. intros room.
    destruct (ChatRoom.participants room) as [|x l]; [done|].
    simpl. by rewrite includes_empty.
Qed.

End ChatPageFacts.

(** * JobListPage *)

Module JobListPageFacts.
Import JobListPage.

(** X18. However skills are added and removed, the selected skills hold
    no entry twice and no empty entry. *)
Theorem selectedSkills_distinct_and_nonempty (xs : list SkillAction) :
  let st := foldl apply_skill (mkSkills [] "") xs in
  NoDup (selectedSkills st) ∧ "" ∉ selectedSkills st.
Proof.
  cbv zeta.
  assert (H0 : NoDup (selectedSkills (mkSkills [] "")) ∧ "" ∉ selectedSkills (mkSkills [] ""))
    by (split; [constructor|apply not_elem_of_nil]).
  revert H0. generalize (mkSkills [] "").
  induction xs as [|x xs IH]; intros st [Hnd Hne]; simpl; [done|].
  apply IH. destruct x as [s|s]; simpl.
  - unfold addSkill. cbv zeta.
    destruct (String.eqb_spec (trim s) ""); simpl; [done|].
    case_bool_decide as Hin; simpl; [done|]. split.
    + apply NoDup_app. split_and!; [done| |apply NoDup_singleton].
      intros y Hy Hy'. apply list_elem_of_singleton in Hy' as ->. done.
    + intros Hin'. apply elem_of_app in Hin' as [?|Hin']; [done|].
      apply list_elem_of_singleton in Hin'. done.
  - split; [by apply NoDup_filter|]. intros Hin. apply list_elem_of_filter in Hin. tauto.
Qed.

(** X19. [addSkill] stores the trimmed skill at the end and empties the
    input box, unless the skill is blank or already selected, in which
    case nothing changes, the input box included. [removeSkill] takes the
    skill out, and removing a skill right after it was newly added gives
    back the selection as it was. *)
Theorem addSkill_removeSkill (skill : string) (st : Skills) :
  let added := addSkill skill st in
  (trim skill = "" ∨ trim skill ∈ selectedSkills st → added = st)
  ∧ (trim skill ≠ "" → trim skill ∉ selectedSkills st →
       selectedSkills added = selectedSkills st ++ [trim skill]
       ∧ skillInput added = ""
       ∧ selectedSkills (removeSkill (trim skill) added) = selectedSkills st)
  ∧ (skill ∉ selectedSkills (removeSkill skill st))
  ∧ (∀ other, other ≠ skill →
       (other ∈ selectedSkills (removeSkill skill st) ↔ other ∈ selectedSkills st)).
Proof.
  cbv zeta. unfold addSkill. cbv zeta. split_and!.
  - intros [Hb|Hin].
    + rewrite Hb. done.
    + destruct (String.eqb (trim skill) ""); simpl; [done|].
      by rewrite bool_decide_eq_true_2.
  - intros Hne Hnin. destruct (String.eqb_spec (trim skill) ""); [done|]. simpl.
    rewrite bool_decide_eq_false_2 by done. simpl. split_and!; try done.
    rewrite filter_app, filter_absent by done.
    rewrite filter_cons_False by (intros H; by apply H). by rewrite app_nil_r.
  - simpl. apply filter_removes.
  - intros other Hne. simpl. rewrite list_elem_of_filter. tauto.
Qed.

(** X20. The job filter never invents or reorders jobs: what it shows is
    a sublist of the fetched jobs, empty while nothing has been fetched,
    and all of them when no criterion is set. With an experience level
    chosen every job shown has exactly that level, and with skills
    selected every job shown has a required skill that contains one of
    them, compared in lower case. *)
Theorem filteredJobs_is_a_selection (toLowerCase : string → string)
    (jobs : option (list Job)) (searchTerm : string) (skills : list string)
    (experience : string) :
  let shown := filteredJobs toLowerCase jobs searchTerm skills experience in
  shown `sublist_of` default [] jobs
  ∧ filteredJobs toLowerCase None searchTerm skills experience = []
  ∧ filteredJobs toLowerCase jobs "" [] "" = default [] jobs
  ∧ (experience ≠ "" → ∀ job, job ∈ shown → experience_level job = experience)
  ∧ (skills ≠ [] →
       ∀ job, job ∈ shown →
         ∃ skill jobSkill,
           skill ∈ skills ∧ jobSkill ∈ skills_required job
           ∧ includes (toLowerCase jobSkill) (toLowerCase skill) = true).
Proof.
  cbv zeta. destruct jobs as [jobs|]; simpl.
  2: { split_and!; try done; intros _ job Hjob; by apply elem_of_nil in Hjob. }
  split_and!; try done.
  - repeat case_match; repeat (etrans; [apply filter_sublist|]); done.
  - intros Hexp job Hjob. destruct (String.eqb_spec experience ""); [done|]. simpl in Hjob.
    apply list_elem_of_In, List.filter_In in Hjob as [_ Heq].
    by apply String.eqb_eq in Heq.
  - intros Hsk job Hjob.
    assert (Hlen : (0 <? length skills)%nat = true) by (by destruct skills).
    rewrite Hlen in Hjob.
    assert (Hin : job ∈ List.filter (λ job,
              existsb (λ skill, existsb (λ jobSkill,
                includes (toLowerCase jobSkill) (toLowerCase skill))
                (skills_required job)) skills)
              (if negb (String.eqb searchTerm "")
               then List.filter (λ job,
                 includes (toLowerCase (title job)) (toLowerCase searchTerm)
                 || includes (toLowerCase (company_name job)) (toLowerCase searchTerm)
                 || includes (toLowerCase (description job)) (toLowerCase searchTerm))
                 jobs
               else jobs)).
    { destruct (negb (String.eqb experience "")); [|done].
      apply list_elem_of_In, List.filter_In in Hjob as [Hjob _].
      by apply list_elem_of_In. }
    apply list_elem_of_In, List.filter_In in Hin as [_ Hex].
    apply List.existsb_exists in Hex as (skill & Hskill & Hex).
    apply List.existsb_exists in Hex as (jobSkill & HjobSkill & Hinc).
    exists skill, jobSkill. split_and!; [by apply list_elem_of_In..|done].
Qed.

End JobListPageFacts.

(** * SignupPage *)

Module SignupPageFacts.
Import SignupPage.

(** X21. [handleSubmit] calls [signup] exactly when all four fields are
    filled in, the validators accept the email and the password, and the
    two passwords are equal; the data it passes are the form's name,
    email, password and role. In every other case it shows one error
    toast and does not call [signup]. *)
Theorem handleSubmit_calls_signup_only_when_valid (validateEmail : string → bool)
    (validatePassword : string → PasswordValidation) (formData : FormData) :
  let outcome := handleSubmit validateEmail validatePassword formData in
  let valid :=
    username formData ≠ "" ∧ email formData ≠ "" ∧ password formData ≠ ""
    ∧ confirmPassword formData ≠ ""
    ∧ validateEmail (email formData) = true
    ∧ isValid (validatePassword (password formData)) = true
    ∧ password formData = confirmPassword formData in
  (valid ↔ ∃ userData, outcome = call_signup userData)
  ∧ (∀ userData, outcome = call_signup userData →
       userData = mkSignupData (username formData) (email formData) (password formData)
                    (role formData))
  ∧ ((∃ userData, outcome = call_signup userData) ∨ ∃ message, outcome = toast_error message).
Proof.
  cbv zeta. unfold handleSubmit.
  destruct (String.eqb_spec (username formData) ""), (String.eqb_spec (email formData) ""),
    (String.eqb_spec (password formData) ""),
    (String.eqb_spec (confirmPassword formData) ""); simpl;
    try (split_and!; [split; [tauto|by intros [? ?]]|done|by right; eexists]).
  destruct (validateEmail (email formData)); simpl;
    [|split_and!; [split; [intros (?&?&?&?&?&?&?); done|by intros [? ?]]|done
                  |by right; eexists]].
  destruct (isValid (validatePassword (password formData))); simpl;
    [|split_and!; [split; [intros (?&?&?&?&?&?&?); done|by intros [? ?]]|done
                  |by right; eexists]].
  destruct (String.eqb_spec (password formData) (confirmPassword formData)); simpl.
  - split_and!; [split; [by eexists|done]| |by left; eexists].
    by intros userData [= <-].
  - split_and!; [split; [intros (?&?&?&?&?&?&?); done|by intros [? ?]]|done
                |by right; eexists].
Qed.

End SignupPageFacts.

(** * AuthContext *)

Module AuthContextFacts.
Import AuthContext.

(** X22. Starting from the initial state, whatever typed actions are
    dispatched, a state that holds a token also holds a user, and a state
    that holds an error is not loading. *)
Theorem authReducer_keeps_user_with_token (actions : list AuthAction) :
  Forall typed actions →
  let state := foldl authReducer initialState actions in
  (is_Some (token state) → is_Some (user state))
  ∧ (is_Some (error state) → loading state = false).
Proof.
  intros Hty. cbv zeta.
  assert (H0 : (is_Some (token initialState) → is_Some (user initialState))
               ∧ (is_Some (error initialState) → loading initialState = false)).
  { split; intros [? H]; discriminate H. }
  revert H0. generalize initialState.
  induction Hty as [|x xs Hx Hxs IH]; intros s [H1 H2]; simpl; [done|].
  apply IH. destruct x as [|pu t|msg| |u|]; try destruct pu; simpl in *;
    try done; split; try done.
  all: try (intros [? H]; discriminate H).
  all: try (intros _; by eexists).
Qed.

Lemma authReducer_keeps_user_with_token_witness :
  is_Some (user (foldl authReducer initialState
                   [LOGIN_START; LOGIN_SUCCESS (Some (User.mk "u1" "alice" "a@x.org"
                                                        User.student)) "jwt";
                    CLEAR_ERROR])).
Proof.
  apply (authReducer_keeps_user_with_token
           [LOGIN_START; LOGIN_SUCCESS (Some (User.mk "u1" "alice" "a@x.org" User.student))
                           "jwt"; CLEAR_ERROR]).
  - repeat constructor.
  - by eexists.
Defined.

(** X23. The token round trip through [localStorage]: [getToken] reads
    back what [setToken] stored, [removeToken] leaves no token, no other
    key is touched by either, [isAuthenticated] holds exactly for a
    stored token that is not the empty string, and [getAuthHeaders] has an
    [Authorization] entry exactly then. *)
Theorem token_round_trip (t : string) (ls : Storage) :
  getToken (setToken t ls) = Some t
  ∧ getToken (removeToken ls) = None
  ∧ (∀ key, key ≠ "token" →
       setToken t ls !! key = ls !! key ∧ removeToken ls !! key = ls !! key)
  ∧ (isAuthenticated ls = true ↔ ∃ t', getToken ls = Some t' ∧ t' ≠ "")
  ∧ isAuthenticated (removeToken (setToken t ls)) = false
  ∧ (isAuthenticated ls = true →
       ∃ t', getToken ls = Some t'
             ∧ getAuthHeaders ls = {["Authorization" := "Bearer " +:+ t']})
  ∧ (isAuthenticated ls = false → getAuthHeaders ls = ∅).
Proof.
  unfold getToken, setToken, removeToken, isAuthenticated, getAuthHeaders, getToken.
  split_and!.
  - apply lookup_insert_eq.
  - apply lookup_delete_eq.
  - intros key Hkey. split; [by apply lookup_insert_ne|by apply lookup_delete_ne].
  - destruct (ls !! "token") as [t'|]; simpl.
    + destruct (String.eqb_spec t' ""); simpl; split; try done.
      * by intros (? & [= <-] & ?).
      * intros _. by exists t'.
    + split; [done|]. by intros (? & ? & ?).
  - by rewrite lookup_delete_eq.
  - destruct (ls !! "token") as [t'|]; simpl; [|done].
    destruct (String.eqb t' ""); simpl; [done|]. intros _. by exists t'.
  - destruct (ls !! "token") as [t'|]; simpl; [|done].
    by destruct (String.eqb t' "").
Qed.

(** X24. Hydration on mount, from the initial state: with no token or an
    empty one in storage the state stays logged out and the storage is
    not touched; a token that does not decode is removed from storage and
    the state stays logged out; a token that decodes ends up in the
    state together with its user, and stays in storage. In no case does
    the state hold a token without a user. *)
Theorem hydrate_logs_in_only_with_a_decodable_token (decode : string → option User.t)
    (ls : Storage) :
  let state := (hydrate decode initialState ls).1 in
  let ls' := (hydrate decode initialState ls).2 in
  (is_Some (token state) → is_Some (user state))
  ∧ (isAuthenticated ls = false → state = initialState ∧ ls' = ls)
  ∧ (∀ t, getToken ls = Some t → t ≠ "" → decode t = None →
       state = initialState ∧ ls' = removeToken ls)
  ∧ (∀ t u, getToken ls = Some t → t ≠ "" → decode t = Some u →
       user state = Some u ∧ token state = Some t ∧ ls' = ls
       ∧ loading state = false ∧ error state = None).
Proof.
  cbv zeta.
  assert (Hcases :
    (isAuthenticated ls = false ∧ hydrate decode initialState ls = (initialState, ls))
    ∨ (∃ t, getToken ls = Some t ∧ t ≠ "" ∧ isAuthenticated ls = true
          ∧ ((decode t = None
              ∧ hydrate decode initialState ls = (initialState, removeToken ls))
             ∨ (∃ u, decode t = Some u
                  ∧ hydrate decode initialState ls
                    = (mkAuthState (Some u) (Some t) false None, ls))))).
  { unfold hydrate, getUserFromToken, isAuthenticated.
    destruct (getToken ls) as [t|] eqn:Ht; simpl; [|left; by rewrite Ht].
    destruct (String.eqb_spec t ""); simpl.
    - left. rewrite Ht. simpl. by destruct (String.eqb_spec t "").
    - right. exists t. split_and!; try done.
      destruct (decode t) as [u|]; simpl.
      + right. exists u. rewrite Ht. simpl. by destruct (String.eqb_spec t "").
      + left. unfold getToken, removeToken. by rewrite lookup_delete_eq. }
  assert (Hnone : is_Some (@None string) → is_Some (@None User.t))
    by (intros [? H]; discriminate H).
  destruct Hcases as [[Hno ->]|(t & Ht & Hne & Hyes & [[Hd ->]|(u & Hd & ->)])]; simpl.
  - split_and!; [done|done| |].
    + intros t Ht Hne. unfold isAuthenticated in Hno. rewrite Ht in Hno. simpl in Hno.
      by destruct (String.eqb_spec t "").
    + intros t u Ht Hne. unfold isAuthenticated in Hno. rewrite Ht in Hno. simpl in Hno.
      by destruct (String.eqb_spec t "").
  - split_and!; [done|congruence|done|].
    intros t' u Ht'. rewrite Ht in Ht'. injection Ht' as <-. congruence.
  - split_and!; [intros _; by eexists|congruence| |].
    + intros t' Ht'. rewrite Ht in Ht'. injection Ht' as <-. congruence.
    + intros t' u' Ht'. rewrite Ht in Ht'. injection Ht' as <-. intros _ Hd'.
      rewrite Hd in Hd'. by injection Hd' as <-.
Qed.

(** X25. [login]: it succeeds exactly when the service answered with a
    non-empty token that decodes, and then state and storage hold that
    token and the state holds the decoded user. When it fails the state
    keeps the user and token it had, is not loading and carries an error.
    A token that does not decode is not left in storage, and the token
    stored before is gone with it. [logout] after any of this gives the
    initial state and no stored token. *)
Theorem login_outcome (decode : string → option User.t) (r : LoginResponse)
    (state : AuthState) (ls : Storage) :
  let success := (login decode r state ls).1.1 in
  let state' := (login decode r state ls).1.2 in
  let ls' := (login decode r state ls).2 in
  (success = true ↔ ∃ t u, r = login_ok t ∧ t ≠ "" ∧ decode t = Some u)
  ∧ (∀ t u, r = login_ok t → t ≠ "" → decode t = Some u →
       user state' = Some u ∧ token state' = Some t ∧ getToken ls' = Some t
       ∧ loading state' = false ∧ error state' = None)
  ∧ (success = false →
       user state' = user state ∧ token state' = token state
       ∧ loading state' = false ∧ is_Some (error state'))
  ∧ (∀ t, r = login_ok t → t ≠ "" → decode t = None → getToken ls' = None)
  ∧ (∀ detail, r = login_rejected detail → ls' = ls)
  ∧ (logout state' ls').1 = initialState
  ∧ getToken (logout state' ls').2 = None.
Proof.
  cbv zeta.
  assert (Hcases :
    (∃ t u, r = login_ok t ∧ t ≠ "" ∧ decode t = Some u
       ∧ login decode r state ls
         = (true, mkAuthState (Some u) (Some t) false None, setToken t ls))
    ∨ ((∀ t u, r = login_ok t → t ≠ "" → decode t = Some u → False)
       ∧ ∃ msg ls',
           login decode r state ls
           = (false, mkAuthState (user state) (token state) false (Some msg), ls')
           ∧ (∀ t, r = login_ok t → t ≠ "" → getToken ls' = None)
           ∧ (∀ detail, r = login_rejected detail → ls' = ls))).
  { unfold login, getUserFromToken, getToken, setToken, removeToken.
    destruct r as [t|detail]; simpl.
    - rewrite lookup_insert_eq. simpl. destruct (String.eqb_spec t ""); simpl.
      + right. split; [by intros t' u [= <-] ?|]. do 2 eexists. split; [done|].
        split; [by intros t' [= <-] ?|done].
      + destruct (decode t) as [u|] eqn:Hd; simpl.
        * left. by exists t, u.
        * right. split; [intros t' u [= <-] _; by rewrite Hd|].
          do 2 eexists. split; [done|]. split; [|done].
          intros t' _ _. apply lookup_delete_eq.
    - right. split; [done|]. do 2 eexists. split; [done|]. split; [done|].
      by intros. }
  destruct Hcases as [(t & u & -> & Hne & Hd & ->)|(Hnot & msg & ls' & -> & Hrm & Hrej)];
    simpl.
  - split_and!.
    + split; [|done]. intros _. by exists t, u.
    + intros t' u' [= <-] _. rewrite Hd. intros [= <-]. split_and!; try done.
      apply lookup_insert_eq.
    + done.
    + intros t' [= <-] _. by rewrite Hd.
    + done.
    + done.
    + apply lookup_delete_eq.
  - split_and!.
    + split; [done|]. intros (t & u & Hr & Hne & Hd). by destruct (Hnot t u).
    + intros t u Hr Hne Hd. by destruct (Hnot t u).
    + intros _. split_and!; try done; by eexists.
    + intros t Hr Hne _. by apply (Hrm t).
    + done.
    + done.
    + apply lookup_delete_eq.
Qed.

End AuthContextFacts.
